(** * scoreWDLstat: feature extraction and aggregation of WDL statistics

    A shallow embedding of [src/scoreWDLstat.cpp].  The program walks the
    moves of annotated chess games, turns every scored half-move into a
    [Key] (outcome, move number, material, quantised score) and counts the
    keys in a hash table; per-chunk tables are computed by worker threads
    and merged into one global table under a mutex.

    Conventions of the embedding:
    - a C++ [int] is a [Z] together with an explicit range check; an
      operation whose C++ behaviour is undefined (signed overflow, a
      float-to-int conversion out of range, [std::string::operator[]] past
      the terminator) yields [None], and [None] is propagated through the
      callers by the option monad;
    - [float] and [double] are IEEE-754 binary32 and binary64, given by the
      Standard Library's executable [SpecFloat] with round-to-nearest-even;
      every operation is rounded to its own format (no fused multiply-add,
      no excess precision);
    - [std::unordered_map<Key,int>] is a [gmap Key Z];
    - the chess rules engine and the PGN reader ([external/chess.hpp]) are
      parameters: a [RulesEngine] instance and a function from a file name
      to the games the reader yields for it. *)

From Stdlib Require Import ZArith QArith Qround String Ascii SpecFloat Permutation.
From Stdlib Require Import DecimalString DecimalZ DecimalPos.
From stdpp Require Import gmap strings list fin_maps.

Open Scope Z_scope.

(** ** Machine integers *)

Module CInt.

Definition INT_MIN : Z := - 2 ^ 31.
Definition INT_MAX : Z := 2 ^ 31 - 1.

(** [fits z]: [z] is representable in a 32-bit signed [int]. *)
Definition fits (z : Z) : bool := (INT_MIN <=? z) && (z <=? INT_MAX).

(** Result of a signed [int] operation whose mathematical value is [z]:
    overflow is undefined behaviour. *)
Definition checked (z : Z) : option Z := if fits z then Some z else None.

(** Conversion to [std::size_t] (64-bit, modular). *)
Definition to_size_t (z : Z) : Z := z mod 2 ^ 64.

(** Narrowing conversion to [int] (modular, two's complement). *)
Definition to_int (z : Z) : Z := (z + 2 ^ 31) mod 2 ^ 32 - 2 ^ 31.

End CInt.

(** ** Floating point *)

Module Flt.

Definition f32_mul : spec_float -> spec_float -> spec_float := SFmul 24 128.
Definition f32_add : spec_float -> spec_float -> spec_float := SFadd 24 128.
Definition f32_div : spec_float -> spec_float -> spec_float := SFdiv 24 128.
(** [int] to [float]. *)
Definition f32_of_int (z : Z) : spec_float := binary_normalize 24 128 z 0 false.

Definition f64_div : spec_float -> spec_float -> spec_float := SFdiv 53 1024.
(** [int] to [double]. *)
Definition f64_of_int (z : Z) : spec_float := binary_normalize 53 1024 z 0 false.

(** The integer obtained from a finite float by discarding the fractional
    part (rounding toward zero); [None] for infinities and NaN. *)
Definition trunc (x : spec_float) : option Z :=
  match x with
  | S754_zero _ => Some 0
  | S754_finite s m e =>
      Some (cond_Zopp s (match e with
                         | Zneg p => Z.shiftr (Zpos m) (Zpos p)
                         | _ => Z.shiftl (Zpos m) e
                         end))
  | _ => None
  end.

(** The largest integer not above a finite float ([std::floor]). *)
Definition floor (x : spec_float) : option Z :=
  match x with
  | S754_zero _ => Some 0
  | S754_finite s m e =>
      Some (match e with
            | Zneg p => Z.shiftr (cond_Zopp s (Zpos m)) (Zpos p)
            | _ => Z.shiftl (cond_Zopp s (Zpos m)) e
            end)
  | _ => None
  end.

(** Floating-to-[int] conversion: truncation; undefined when the truncated
    value is not representable (and for infinities and NaN). *)
Definition to_int (x : spec_float) : option Z := trunc x ≫= CInt.checked.

(** [int(std::floor(x))]. *)
Definition floor_to_int (x : spec_float) : option Z := floor x ≫= CInt.checked.

End Flt.

(** ** Strings *)

(** [s.find(c)]: index of the first occurrence, [None] for [npos]. *)
Fixpoint find (c : ascii) (s : string) : option nat :=
  match s with
  | EmptyString => None
  | String a rest => if Ascii.eqb a c then Some 0%nat else S <$> find c rest
  end.

(** [s.substr(pos, n)]. *)
Definition substr (s : string) (pos n : nat) : string := String.substring pos n s.

(** [s[pos]]: the character at [pos]; at [pos = s.size()] a reference to the
    terminating null character; undefined beyond. *)
Definition string_at (s : string) (pos : nat) : option ascii :=
  match String.get pos s with
  | Some c => Some c
  | None => if decide (pos = String.length s) then Some Ascii.zero else None
  end.

(** ** The key and the frequency table *)

Inductive Result := WIN | DRAW | LOSS.

Record ResultKey := { white : Result; black : Result }.

Record Key := mkKey { outcome : Result; move : Z; material : Z; score : Z }.

#[global] Instance Result_eq_dec : EqDecision Result.
Proof. solve_decision. Defined.

#[global] Instance Key_eq_dec : EqDecision Key.
Proof. solve_decision. Defined.

Definition Result_to_nat (r : Result) : nat :=
  match r with WIN => 0 | DRAW => 1 | LOSS => 2 end%nat.

Definition Result_of_nat (n : nat) : Result :=
  match n with O => WIN | S O => DRAW | _ => LOSS end.

#[global] Instance Result_countable : Countable Result.
Proof.
  apply (inj_countable' Result_to_nat Result_of_nat). by intros [].
Defined.

#[global] Instance Key_countable : Countable Key.
Proof.
  apply (inj_countable'
           (λ k, (outcome k, move k, material k, score k))
           (λ t, let '(o, m, ma, s) := t in mkKey o m ma s)).
  by intros [].
Defined.

(** [using map_t = std::unordered_map<Key, int>] *)
Abbreviation map_t := (gmap Key Z).

(** [pos_map[key] += n]: [operator[]] value-initialises a missing entry to 0;
    the addition is a signed [int] addition. *)
Definition map_add (pos_map : map_t) (key : Key) (n : Z) : option map_t :=
  let old := default 0 (pos_map !! key) in
  if CInt.fits (old + n) then Some (<[key := old + n]> pos_map) else None.

(** Left fold in the option monad: a loop whose body may be undefined. *)
Fixpoint foldlM {A B : Type} (f : A -> B -> option A) (a : A) (l : list B) : option A :=
  match l with
  | [] => Some a
  | b :: l' => f a b ≫= λ a', foldlM f a' l'
  end.

(** ** namespace analysis: the numeric parser *)

Definition is_digit (c : ascii) : bool :=
  (48 <=? Z.of_N (N_of_ascii c)) && (Z.of_N (N_of_ascii c) <=? 57).

(** [*str - '0'] *)
Definition digit_val (c : ascii) : Z := Z.of_N (N_of_ascii c) - 48.

(** First [while] loop of [fast_stof]: the integer part.  Returns the
    accumulated value and the rest of the string; the end of the Rocq string
    plays the role of the terminating null character. *)
Fixpoint int_part (result : spec_float) (str : string) : spec_float * string :=
  match str with
  | String c rest =>
      if is_digit c
      then int_part (Flt.f32_add (Flt.f32_mul result (Flt.f32_of_int 10))
                                 (Flt.f32_of_int (digit_val c))) rest
      else (result, str)
  | EmptyString => (result, str)
  end.

(** Second [while] loop of [fast_stof]: the digits after the point. *)
Fixpoint frac_part (result fraction : spec_float) (str : string)
  : spec_float * spec_float :=
  match str with
  | String c rest =>
      if is_digit c
      then frac_part (Flt.f32_add (Flt.f32_mul result (Flt.f32_of_int 10))
                                  (Flt.f32_of_int (digit_val c)))
                     (Flt.f32_mul fraction (Flt.f32_of_int 10)) rest
      else (result, fraction)
  | EmptyString => (result, fraction)
  end.

Definition fast_stof (str : string) : spec_float :=
  let '(sign, str) :=
    match str with
    | String "-" rest => (-1, rest)
    | String "+" rest => (1, rest)
    | _ => (1, str)
    end in
  let '(result, str) := int_part (S754_zero false) str in
  let '(result, fraction, decimal) :=
    match str with
    | String "." rest =>
        let '(r, f) := frac_part result (Flt.f32_of_int 1) rest in (r, f, true)
    | _ => (result, Flt.f32_of_int 1, false)
    end in
  let result := Flt.f32_mul result (Flt.f32_of_int sign) in
  if decimal then Flt.f32_div result fraction else result.

(** ** namespace analysis: the score of one annotation *)

(** The "no score" value [key.score] is initialised with. *)
Definition no_score : Z := 1002.

(** [if (score > 1000) score = 1000; else if (score < -1000) score = -1000;] *)
Definition clamp (score : Z) : Z :=
  if 1000 <? score then 1000 else if score <? -1000 then -1000 else score.

(** [int(std::floor(score / 5.0)) * 5] *)
Definition reduce_precision (score : Z) : option Z :=
  Flt.floor_to_int (Flt.f64_div (Flt.f64_of_int score) (Flt.f64_of_int 5))
    ≫= λ q, CInt.checked (q * 5).

(** [int score = 100 * fast_stof(match_score.c_str())] *)
Definition centi_score (match_score : string) : option Z :=
  Flt.to_int (Flt.f32_mul (Flt.f32_of_int 100) (fast_stof match_score)).

(** The read [match_score[1]] of the mate test. *)
Definition mate_check_read (comment : string) (delimiter_pos : nat) : option ascii :=
  string_at (substr comment 0 delimiter_pos) 1.

(** Lines 150-176 of [ana_game]: the value of [key.score] after the
    annotation of one move was inspected. *)
Definition ply_score (comment : string) : option Z :=
  match find "/" comment with
  | Some delimiter_pos =>
      if negb (String.eqb comment "book") then
        let match_score := substr comment 0 delimiter_pos in
        mate_check_read comment delimiter_pos ≫= λ c1,
        if Ascii.eqb c1 "M" then
          string_at match_score 0 ≫= λ c0,
          if Ascii.eqb c0 "+" then Some 1001 else Some (-1001)
        else
          centi_score match_score ≫= λ score,
          reduce_precision (clamp score)
      else Some no_score
  | None => Some no_score
  end.

(** ** External collaborators *)

Inductive Color := WHITE | BLACK.

Inductive PieceType := PAWN | KNIGHT | BISHOP | ROOK | QUEEN | KING.

(** The part of [external/chess.hpp] that [ana_game] uses.  [count b pt]
    stands for [builtin::popcount(b.pieces(pt))], the population count of a
    64-bit bitboard. *)
Class RulesEngine := {
  Board : Type;
  Move : Type;
  Board_new : Board;
  setFen : Board -> string -> Board;
  set960 : Board -> bool -> Board;
  sideToMove : Board -> Color;
  count : Board -> PieceType -> Z;
  makeMove : Board -> Move -> Board;
  count_range : forall b pt, 0 <= count b pt <= 64
}.

(** One element of [game.moves()]: the move and its comment. *)
Record PgnMove `{RulesEngine} := { pgn_move : Move; comment : string }.

(** A game as the PGN reader returns it. *)
Record Game `{RulesEngine} := {
  headers : gmap string string;
  moves : list PgnMove
}.

(** ** namespace analysis: one game *)

Section Extractor.
Context `{RulesEngine}.

(** Lines 111-130 of [ana_game]: the outcome pair of the game, [None] on
    the two early returns. *)
Definition result_key (game : Game) : option ResultKey :=
  match headers game !! "Result"%string with
  | None => None
  | Some result =>
      if String.eqb result "1-0" then Some {| white := WIN; black := LOSS |}
      else if String.eqb result "0-1" then Some {| white := LOSS; black := WIN |}
      else if String.eqb result "1/2-1/2" then Some {| white := DRAW; black := DRAW |}
      else None
  end.

(** Lines 132-141 of [ana_game]: the board the walk starts from. *)
Definition start_board (game : Game) : Board :=
  let board := Board_new in
  let board :=
    match headers game !! "FEN"%string with
    | Some fen => setFen board fen
    | None => board
    end in
  match headers game !! "Variant"%string with
  | Some v => if String.eqb v "fischerandom" then set960 board true else board
  | None => board
  end.

(** Lines 179-186 of [ana_game]. *)
Definition make_key (resultkey : ResultKey) (board : Board) (ply score : Z) : Key :=
  {| outcome := match sideToMove board with
                | WHITE => white resultkey
                | BLACK => black resultkey
                end;
     move := (ply + 1) ÷ 2;
     material := 9 * count board QUEEN + 5 * count board ROOK
                 + 3 * count board BISHOP + 3 * count board KNIGHT
                 + count board PAWN;
     score := score |}.

(** Lines 150-186: the key of one ply, [Some None] when no score was found. *)
Definition ply_key (resultkey : ResultKey) (board : Board) (ply : Z) (comment : string)
  : option (option Key) :=
  ply_score comment ≫= λ s,
  Some (if s =? no_score then None else Some (make_key resultkey board ply s)).

(** The [for] loop of [ana_game] (lines 143-191) as a function of the loop
    state [(ply, board, pos_map)]. *)
Fixpoint ana_loop (resultkey : ResultKey) (ply : Z) (board : Board) (pos_map : map_t)
    (mvs : list PgnMove) : option (Z * Board * map_t) :=
  match mvs with
  | [] => Some (ply, board, pos_map)
  | mv :: rest =>
      let ply := ply + 1 in
      if 400 <? ply then Some (ply, board, pos_map)
      else
        ply_key resultkey board ply (comment mv) ≫= λ key,
        match key with
        | Some key => map_add pos_map key 1
        | None => Some pos_map
        end ≫= λ pos_map,
        ana_loop resultkey ply (makeMove board (pgn_move mv)) pos_map rest
  end.

(** [ana_game(pos_map, game)] for a [game] that holds a value (the only way
    [ana_files] calls it). *)
Definition ana_game (pos_map : map_t) (game : Game) : option map_t :=
  match result_key game with
  | None => Some pos_map
  | Some resultkey =>
      ana_loop resultkey 0 (start_board game) pos_map (moves game)
        ≫= λ st, Some st.2
  end.

(** *** The plies a game contributes

    A record of one execution of line 187: the ply number, the board the
    key was computed from, and the key. *)
Record Emit := { e_ply : Z; e_board : Board; e_key : Key }.

(** The increments the loop performs, in order: the loop of [ana_loop]
    with the table left out. *)
Fixpoint loop_trace (resultkey : ResultKey) (ply : Z) (board : Board)
    (mvs : list PgnMove) : option (list Emit) :=
  match mvs with
  | [] => Some []
  | mv :: rest =>
      let ply := ply + 1 in
      if 400 <? ply then Some []
      else
        ply_key resultkey board ply (comment mv) ≫= λ key,
        loop_trace resultkey ply (makeMove board (pgn_move mv)) rest ≫= λ tr,
        Some (match key with
              | Some key => {| e_ply := ply; e_board := board; e_key := key |} :: tr
              | None => tr
              end)
  end.

Definition game_trace (game : Game) : option (list Emit) :=
  match result_key game with
  | None => Some []
  | Some resultkey => loop_trace resultkey 0 (start_board game) (moves game)
  end.

(** The keys of the scored plies of a game. *)
Definition game_keys (game : Game) : option (list Key) :=
  fmap (M := list) e_key <$> game_trace game.

(** [pos_map[key] += 1] for every key of a list, in order. *)
Definition bump_all (keys : list Key) (pos_map : map_t) : option map_t :=
  foldlM (λ m k, map_add m k 1) pos_map keys.

(** ** namespace analysis: files, and the aggregation of [main] *)

(** The games [pgn::readGame] yields for a file until it returns no value. *)
Variable read_games : string -> list Game.

Definition ana_files (map : map_t) (files : list string) : option map_t :=
  foldlM (λ map file, foldlM ana_game map (read_games file)) map files.

(** Lines 307-309 of [main]: [pos_map[pair.first] += pair.second] for the
    pairs of the local table, in the table's iteration order. *)
Definition merge (pos_map map : map_t) : option map_t :=
  foldlM (λ m p, map_add m p.1 p.2) pos_map (map_to_list map).

(** One task of the pool (lines 297-315), from the point where it holds
    the lock. *)
Definition task (pos_map : map_t) (files : list string) : option map_t :=
  ana_files ∅ files ≫= merge pos_map.

(** The global table after [pool.wait()].  The tasks compute their private
    tables independently and the mutex serialises the merges, so a run is
    determined by the order in which the tasks take the lock:
    [merge_order] lists the chunks in that order. *)
Definition aggregate (merge_order : list (list string)) : option map_t :=
  foldlM task ∅ merge_order.

(** All games of a list of files, in reading order. *)
Definition games_of (files : list string) : list Game :=
  files ≫= read_games.

(** The keys of all scored plies of a list of games. *)
Fixpoint all_keys (games : list Game) : option (list Key) :=
  match games with
  | [] => Some []
  | game :: games =>
      game_keys game ≫= λ ks1, all_keys games ≫= λ ks2, Some (ks1 ++ ks2)
  end.

End Extractor.

(** ** The chunk planner *)

(** [chunks_size] of [split_chunks], computed in [std::size_t] and narrowed
    to [int]; division by zero is undefined. *)
Definition chunks_size (size target_chunks : Z) : option Z :=
  let t := CInt.to_size_t target_chunks in
  if t =? 0 then None
  else Some (CInt.to_int (CInt.to_size_t (size + t - 1) / t)).

(** The [while] loop of [split_chunks].  [rest] is the range [begin, end).
    Every iteration that makes progress shortens [rest], so [fuel] bounds
    the iterations; [None] stands for an execution without result: stepping
    the iterator backwards, or a loop that never advances. *)
Fixpoint split_loop {A} (fuel : nat) (chunks_size : Z) (rest : list A)
    (chunks : list (list A)) : option (list (list A)) :=
  match rest with
  | [] => Some chunks
  | _ :: _ =>
      match fuel with
      | O => None
      | S fuel =>
          let n := Z.min chunks_size (CInt.to_int (Z.of_nat (length rest))) in
          if n <? 0 then None
          else split_loop fuel chunks_size (drop (Z.to_nat n) rest)
                          (chunks ++ [take (Z.to_nat n) rest])
      end
  end.

Definition split_chunks {A} (pgns : list A) (target_chunks : Z) : option (list (list A)) :=
  chunks_size (Z.of_nat (length pgns)) target_chunks ≫= λ cs,
  split_loop (length pgns) cs pgns [].

(** Line 275 of [main]; [hc] is the value of
    [std::thread::hardware_concurrency()], an [unsigned]. *)
Definition target_chunks (hc : Z) : option Z :=
  CInt.checked (4 * Z.max 1 (CInt.to_int hc)).

(** Lines 275-277 of [main]. *)
Definition files_chunked {A} (files_pgn : list A) (hc : Z) : option (list (list A)) :=
  target_chunks hc ≫= split_chunks files_pgn.

(** ** The operators of [Key] *)

(** [static_cast<int>(outcome)]: the enumerators are the character codes of
    'W', 'D' and 'L'. *)
Definition Result_code (r : Result) : Z :=
  match r with WIN => 87 | DRAW => 68 | LOSS => 76 end.

(** [static_cast<char>(outcome)] *)
Definition Result_char (r : Result) : ascii :=
  match r with WIN => "W" | DRAW => "D" | LOSS => "L" end%char.

(** [Key::operator==] *)
Definition Key_eqb (k1 k2 : Key) : bool :=
  bool_decide (outcome k1 = outcome k2) && (move k1 =? move k2)
  && (material k1 =? material k2) && (score k1 =? score k2).

(** Reduction to [std::uint32_t]. *)
Definition u32 (z : Z) : Z := z mod 2 ^ 32.

(** [hash ^= x + 0x9e3779b9 + (hash << 6) + (hash >> 2)]: the [int] [x] is
    converted to [unsigned] and the sum is taken modulo 2^32. *)
Definition hash_step (hash x : Z) : Z :=
  Z.lxor hash (u32 (x + 2654435769 + Z.shiftl hash 6 + Z.shiftr hash 2)).

(** [Key::operator std::size_t] *)
Definition Key_hash (k : Key) : Z :=
  let hash := Result_code (outcome k) in
  let hash := hash_step hash (move k) in
  let hash := hash_step hash (material k) in
  hash_step hash (score k).

(** [std::to_string(int)]: the decimal digits, with a leading '-' for a
    negative number. *)
Definition to_string (z : Z) : string := NilZero.string_of_int (Z.to_int z).

(** [Key::operator std::string] *)
Definition Key_to_string (k : Key) : string :=
  ("('" ++ String (Result_char (outcome k)) "" ++ "', " ++ to_string (move k)
   ++ ", " ++ to_string (material k) ++ ", " ++ to_string (score k) ++ ")")%string.

(** ** The result writer of [main] *)

(** Lines 329-335: the JSON object [j] after the loop; [j[s] = c] inserts
    or overwrites the member [s]. *)
Definition to_json (pos_map : map_t) : gmap string Z :=
  foldl (λ j pair, <[Key_to_string pair.1 := pair.2]> j) ∅ (map_to_list pos_map).

(** Lines 327-335: [total], a [std::uint64_t], after the loop. *)
Definition total_of (pos_map : map_t) : Z :=
  foldl (λ total pair, CInt.to_size_t (total + CInt.to_size_t pair.2)) 0
        (map_to_list pos_map).

(** ** The file list of [main] *)

Section Files.

(** The paths [fs::directory_iterator(path)] yields, [None] when it throws;
    and [entry.path().extension()]. *)
Variable dir_entries : string -> option (list string).
Variable extension : string -> string.

Definition get_files (path : string) : option (list string) :=
  dir_entries path ≫= λ entries,
  Some (filter (λ entry, extension entry = ".pgn"%string) entries).

(** [std::find(args.begin(), args.end(), flag) != args.end()] *)
Definition has_arg (flag : string) (args : list string) : bool :=
  existsb (String.eqb flag) args.

(** [*(std::find(args.begin(), args.end(), flag) + 1)]: the argument after
    the first occurrence of [flag]; there is none when the flag comes last,
    and the iterator is then dereferenced at [end()]. *)
Fixpoint arg_after (flag : string) (args : list string) : option string :=
  match args with
  | [] => None
  | a :: rest => if String.eqb a flag then head rest else arg_after flag rest
  end.

(** Lines 262-272 of [main]: the value of [files_pgn]. *)
Definition files_pgn (args : list string) : option (list string) :=
  if has_arg "--dir" args then arg_after "--dir" args ≫= get_files
  else if has_arg "--file" args then arg_after "--file" args ≫= λ path, Some [path]
  else get_files "./pgns".

End Files.

(** ** Vocabulary of the statements

    Nothing below is executed by the program; these definitions name what
    the theorems talk about. *)

(** The scores a key can carry. *)
Definition retained_score (s : Z) : Prop :=
  (s `mod` 5 = 0 /\ -1000 <= s <= 1000) \/ s = 1001 \/ s = -1001.

(** The integers [lo, lo + n). *)
Definition Zrange (lo : Z) (n : nat) : list Z := (λ i, lo + Z.of_nat i) <$> seq 0 n.

(** The check of [reduce_precision] against the lower multiple of 5. *)
Definition reduce_precision_ok (s : Z) : bool :=
  match reduce_precision s with
  | Some r => r =? 5 * (s `div` 5)
  | None => false
  end.

(** The value of a finite float as a rational number. *)
Definition SF2Q (x : spec_float) : option Q :=
  match x with
  | S754_zero _ => Some (inject_Z 0)
  | S754_finite s m e => Some (Qmult (inject_Z (cond_Zopp s (Zpos m))) (Qpower (inject_Z 2) e))
  | _ => None
  end.

(** "Multiply by 100, clamp to the closed range [-1000, 1000], then round
    toward negative infinity to the nearest lower multiple of 5", read on
    the exact value of the single-precision product [100 * v]. *)
Definition spec_pipeline (v : spec_float) : option Z :=
  SF2Q (Flt.f32_mul (Flt.f32_of_int 100) v) ≫= λ p,
  let c := if Qle_bool p (inject_Z 1000)
           then (if Qle_bool (inject_Z (-1000)) p then p else inject_Z (-1000))
           else inject_Z 1000 in
  Some (Qfloor (Qdiv c (inject_Z 5)) * 5).

(** The count a table holds for a key (0 when the key is absent). *)
Definition cnt (m : map_t) (k : Key) : Z := default 0 (m !! k).

(** The number of occurrences of a key in a list of keys. *)
Definition occ (k : Key) (ks : list Key) : Z := Z.of_nat (count_occ Key_eq_dec ks k).

(** The sum of the counts a list of pairs holds for a key. *)
Fixpoint weight (k : Key) (ps : list (Key * Z)) : Z :=
  match ps with
  | [] => 0
  | p :: ps => (if decide (p.1 = k) then p.2 else 0) + weight k ps
  end.

(** [pos_map[p.first] += p.second] over a list of pairs. *)
Definition add_pairs (m : map_t) (ps : list (Key * Z)) : option map_t :=
  foldlM (λ m p, map_add m p.1 p.2) m ps.

(** The tables the program builds: every stored count is a positive [int]. *)
Definition table_ok (m : map_t) : Prop :=
  forall k c, m !! k = Some c -> 1 <= c <= CInt.INT_MAX.

(** The sum of the counts of a list of pairs. *)
Definition sum_counts (ps : list (Key * Z)) : Z := foldr (λ p a, p.2 + a) 0 ps.

(** Valid values of an [int]. *)
Definition is_int (z : Z) : Prop := CInt.INT_MIN <= z <= CInt.INT_MAX.

(** An evaluation of [n] centipawns written with two decimals, as engines
    print it: "-1.05", "0.30", and, with [plus], "+0.30". *)
Definition digit_char (d : Z) : ascii := ascii_of_N (Z.to_N (48 + d)).

Definition two_decimal (plus : bool) (n : Z) : string :=
  let sign : string := if n <? 0 then "-" else if plus then "+" else "" in
  let units := to_string (Z.abs n `div` 100) in
  let tenths := digit_char ((Z.abs n `mod` 100) `div` 10) in
  let hundredths := digit_char (Z.abs n `mod` 10) in
  (sign ++ units ++ "." ++ String tenths (String hundredths ""))%string.

(** The two-decimal evaluations between -10.00 and 10.00 whose score is
    not the lower multiple of 5 of their centipawn value: the
    single-precision product [100 * v] falls just short of the centipawn
    value, and the conversion to [int] discards the fraction. *)
Definition bucket_below : list Z :=
  [105; 210; 235; 420; 445; 470; 495; 815; 840; 865; 890; 915; 940; 965; 990].

Definition bucket_above : list Z :=
  [-986; -961; -936; -911; -886; -861; -836; -811; -236; -211; -106].

(** The score stored for a two-decimal evaluation of [n] centipawns. *)
Definition two_decimal_score (n : Z) : Z :=
  5 * (n `div` 5)
  + (if existsb (Z.eqb n) bucket_below then -5
     else if existsb (Z.eqb n) bucket_above then 5 else 0).

Definition two_decimal_ok (plus : bool) (n : Z) : bool :=
  bool_decide (find "/" (two_decimal plus n) = None)
  && bool_decide (ply_score (two_decimal plus n ++ "/") = Some (two_decimal_score n)).

(** [fast_stof] after the sign was read. *)
Definition fast_stof_unsigned (sign : Z) (str : string) : spec_float :=
  let '(result, str) := int_part (S754_zero false) str in
  let '(result, fraction, decimal) :=
    match str with
    | String "." rest =>
        let '(r, f) := frac_part result (Flt.f32_of_int 1) rest in (r, f, true)
    | _ => (result, Flt.f32_of_int 1, false)
    end in
  let result := Flt.f32_mul result (Flt.f32_of_int sign) in
  if decimal then Flt.f32_div result fraction else result.

Section Plies.
Context `{RulesEngine}.

(** The board after a prefix of the moves was played. *)
Definition play (board : Board) (mvs : list PgnMove) : Board :=
  foldl (λ b mv, makeMove b (pgn_move mv)) board mvs.

(** [e] is one of the increments [game] causes. *)
Definition emits (game : Game) (e : Emit) : Prop :=
  exists tr, game_trace game = Some tr /\ e ∈ tr.

(** What an increment of the loop started at [(ply, board)] looks like. *)
Definition emit_at (resultkey : ResultKey) (ply : Z) (board : Board)
    (mvs : list PgnMove) (e : Emit) : Prop :=
  exists (i : nat) mv s,
    mvs !! i = Some mv /\
    e_ply e = ply + Z.of_nat i + 1 /\
    e_ply e <= 400 /\
    e_board e = play board (take i mvs) /\
    ply_score (comment mv) = Some s /\
    s <> no_score /\
    e_key e = make_key resultkey (e_board e) (e_ply e) s.

End Plies.

(** ** A small rules engine to run the extractor on

    It keeps the side to move and the material of the initial position;
    every move passes the turn. *)
Module Toy.

Definition pieces (b : Color) (pt : PieceType) : Z :=
  match pt with
  | PAWN => 16 | KNIGHT => 4 | BISHOP => 4 | ROOK => 4 | QUEEN => 2 | KING => 2
  end.

#[export] Instance engine : RulesEngine.
Proof.
  refine {| Board := Color;
            Move := unit;
            Board_new := WHITE;
            setFen b _ := b;
            set960 b _ := b;
            sideToMove b := b;
            count := pieces;
            makeMove b _ := match b with WHITE => BLACK | BLACK => WHITE end |}.
  intros b pt. destruct pt; simpl; lia.
Defined.

Definition mv (c : string) : PgnMove := {| pgn_move := tt; comment := c |}.

Definition game (result : string) (comments : list string) : Game :=
  {| headers := {[ "Result"%string := result ]}; moves := mv <$> comments |}.

Definition emit (ply : Z) (board : Color) (key : Key) : Emit :=
  {| e_ply := ply; e_board := board : @Board engine; e_key := key |}.

(** A game without any header. *)
Definition bare (comments : list string) : Game :=
  {| headers := ∅; moves := mv <$> comments |}.

(** Two files of a toy file system. *)
Definition read_games (file : string) : list Game :=
  if String.eqb file "a.pgn" then
    [game "1-0" ["+0.25/18"; "-0.30/17"; "book"; "-M3/20"]%string]
  else if String.eqb file "b.pgn" then
    [game "1/2-1/2" ["+0.25/18"; "0.00/1"]%string; bare ["+1.00/9"]%string]
  else [].

End Toy.

(** A directory listing to select files from. *)
Module ToyFiles.

Definition dir_entries (path : string) : option (list string) :=
  if String.eqb path "d" then Some ["d/a.pgn"; "d/notes.txt"; "d/b.pgn"]%string
  else None.

Definition extension (entry : string) : string :=
  if String.eqb entry "d/notes.txt" then ".txt"%string else ".pgn"%string.

End ToyFiles.

(** * Properties *)

(** ** Machine integers and the quantisation *)

Lemma fits_spec z : CInt.fits z = true <-> CInt.INT_MIN <= z <= CInt.INT_MAX.
Proof. unfold CInt.fits. rewrite andb_true_iff, !Z.leb_le. tauto. Qed.

Lemma checked_Some z r : CInt.checked z = Some r <-> r = z /\ CInt.fits z = true.
Proof.
  unfold CInt.checked. destruct (CInt.fits z); split.
  - intros [= <-]. done.
  - intros [-> _]. done.
  - done.
  - intros [_ ?]. done.
Qed.

Lemma to_int_small z : 0 <= z < 2 ^ 31 -> CInt.to_int z = z.
Proof.
  intros Hz. unfold CInt.to_int.
  rewrite Z.mod_small; lia.
Qed.

Lemma clamp_range s : -1000 <= clamp s <= 1000.
Proof.
  unfold clamp.
  destruct (Z.ltb_spec 1000 s); [lia|].
  destruct (Z.ltb_spec s (-1000)); lia.
Qed.

Lemma clamp_id s : -1000 <= s <= 1000 -> clamp s = s.
Proof.
  intros Hs. unfold clamp.
  destruct (Z.ltb_spec 1000 s); [lia|].
  destruct (Z.ltb_spec s (-1000)); lia.
Qed.


Lemma Zrange_forallb (P : Z -> bool) lo n :
  forallb P (Zrange lo n) = true ->
  forall z, lo <= z < lo + Z.of_nat n -> P z = true.
Proof.
  intros Hall z Hz.
  rewrite forallb_forall in Hall. apply Hall.
  unfold Zrange. apply in_map_iff.
  exists (Z.to_nat (z - lo)). split; [lia|].
  apply in_seq. lia.
Qed.


(** On the clamped range the double-precision quotient, its floor and the
    conversion back are exact: the result is the lower multiple of 5.
    Checked on each of the 2001 arguments. *)
Lemma reduce_precision_spec s :
  -1000 <= s <= 1000 -> reduce_precision s = Some (5 * (s `div` 5)).
Proof.
  intros Hs.
  assert (Hok : reduce_precision_ok s = true).
  { apply (Zrange_forallb reduce_precision_ok (-1000) 2001); [|lia].
    vm_compute. reflexivity. }
  unfold reduce_precision_ok in Hok.
  destruct (reduce_precision s) as [r|]; [|done].
  apply Z.eqb_eq in Hok. by subst.
Qed.

(** ** Strings *)

Lemma find_Some_not_book comment pos :
  find "/" comment = Some pos -> String.eqb comment "book" = false.
Proof.
  intros Hf. destruct (String.eqb_spec comment "book") as [->|]; [|done].
  vm_compute in Hf. done.
Qed.

Lemma string_at_get s pos c : String.get pos s = Some c -> string_at s pos = Some c.
Proof. intros Hg. unfold string_at. by rewrite Hg. Qed.

(** ** The score of one annotation *)


Lemma retained_not_no_score s : retained_score s -> s <> no_score.
Proof. unfold retained_score, no_score. intros [[Hm _]|[->| ->]] Hs; subst; done. Qed.

(** What [ply_score] does on a numeric (non-mate) annotation. *)
Lemma ply_score_numeric comment pos c1 t :
  find "/" comment = Some pos ->
  mate_check_read comment pos = Some c1 ->
  c1 <> "M"%char ->
  centi_score (substr comment 0 pos) = Some t ->
  ply_score comment = Some (5 * (clamp t `div` 5)).
Proof.
  intros Hf Hr Hc1 Ht. unfold ply_score.
  rewrite Hf, (find_Some_not_book _ _ Hf). simpl.
  rewrite Hr. simpl.
  destruct (Ascii.eqb_spec c1 "M") as [|_]; [done|].
  rewrite Ht. simpl.
  apply reduce_precision_spec, clamp_range.
Qed.

Lemma ply_score_cases comment s :
  ply_score comment = Some s -> s = no_score \/ retained_score s.
Proof.
  unfold ply_score. intros Hs.
  destruct (find "/" comment) as [pos|] eqn:Hf; [|left; congruence].
  destruct (negb (String.eqb comment "book")); [|left; congruence].
  destruct (mate_check_read comment pos) as [c1|]; [simpl in Hs|done].
  destruct (Ascii.eqb c1 "M").
  - destruct (string_at (substr comment 0 pos) 0) as [c0|]; [simpl in Hs|done].
    right. unfold retained_score.
    destruct (Ascii.eqb c0 "+"); inversion Hs; auto.
  - destruct (centi_score (substr comment 0 pos)) as [t|]; [simpl in Hs|done].
    rewrite reduce_precision_spec in Hs by apply clamp_range.
    inversion Hs as [Hs']. right. left.
    pose proof (clamp_range t) as Hc.
    split.
    + rewrite Z.mul_comm. apply Z.mod_mul. done.
    + split; [|].
      * assert (-200 <= clamp t `div` 5); [|lia].
        apply Z.div_le_lower_bound; lia.
      * assert (clamp t `div` 5 <= 200); [|lia].
        apply Z.div_le_upper_bound; lia.
Qed.

(** ** Loops in the option monad *)

Lemma foldlM_app {A B} (f : A -> B -> option A) a l1 l2 :
  foldlM f a (l1 ++ l2) = foldlM f a l1 ≫= λ a', foldlM f a' l2.
Proof.
  revert a. induction l1 as [|b l1 IH]; intros a; simpl; [done|].
  destruct (f a b); simpl; [apply IH|done].
Qed.

Lemma option_eq_by_Some {A} (x y : option A) :
  (forall a, x = Some a -> y = Some a) ->
  (forall a, y = Some a -> x = Some a) ->
  x = y.
Proof.
  intros Hxy Hyx. destruct x as [a|].
  - symmetry. by apply Hxy.
  - destruct y as [b|]; [|done]. by apply Hyx.
Qed.

(** ** One game *)

Section ExtractorFacts.
Context `{RulesEngine}.


Lemma ply_key_Some resultkey board ply c key :
  ply_key resultkey board ply c = Some (Some key) ->
  exists s, ply_score c = Some s /\ s <> no_score /\
            key = make_key resultkey board ply s.
Proof.
  unfold ply_key. destruct (ply_score c) as [s|]; simpl; [|done].
  destruct (Z.eqb_spec s no_score); [done|].
  intros [= <-]. eauto.
Qed.

Lemma bump_all_cons k ks m :
  bump_all (k :: ks) m = map_add m k 1 ≫= bump_all ks.
Proof. done. Qed.

Lemma bump_all_app ks1 ks2 m :
  bump_all (ks1 ++ ks2) m = bump_all ks1 m ≫= bump_all ks2.
Proof. apply foldlM_app. Qed.

(** The loop adds exactly the keys of its trace. *)
Lemma ana_loop_trace resultkey mvs : forall ply board m,
  ana_loop resultkey ply board m mvs ≫= (λ st, Some st.2)
  = loop_trace resultkey ply board mvs ≫= λ tr, bump_all (e_key <$> tr) m.
Proof.
  induction mvs as [|mv rest IH]; intros ply board m; simpl; [done|].
  destruct (400 <? ply + 1); [done|].
  destruct (ply_key resultkey board (ply + 1) (comment mv)) as [[key|]|];
    simpl; [| |done].
  - destruct (map_add m key 1) as [m1|] eqn:Hadd; simpl.
    + rewrite IH.
      destruct (loop_trace resultkey (ply + 1) _ rest) as [tr|]; simpl; [|done].
      rewrite bump_all_cons, Hadd. done.
    + destruct (loop_trace resultkey (ply + 1) _ rest) as [tr|]; simpl; [|done].
      rewrite bump_all_cons, Hadd. done.
  - rewrite IH.
    by destruct (loop_trace resultkey (ply + 1) _ rest).
Qed.

Lemma ana_game_trace m game :
  ana_game m game = game_trace game ≫= λ tr, bump_all (e_key <$> tr) m.
Proof.
  unfold ana_game, game_trace.
  destruct (result_key game) as [resultkey|]; [|done].
  apply ana_loop_trace.
Qed.

Lemma ana_game_keys m game :
  ana_game m game = game_keys game ≫= λ ks, bump_all ks m.
Proof.
  rewrite ana_game_trace. unfold game_keys.
  by destruct (game_trace game).
Qed.

Lemma loop_trace_sound resultkey mvs : forall ply board tr,
  loop_trace resultkey ply board mvs = Some tr ->
  Forall (emit_at resultkey ply board mvs) tr.
Proof.
  induction mvs as [|mv rest IH]; intros ply board tr; simpl.
  { intros [= <-]. constructor. }
  destruct (Z.ltb_spec 400 (ply + 1)) as [|Hle].
  { intros [= <-]. constructor. }
  destruct (ply_key resultkey board (ply + 1) (comment mv)) as [key|] eqn:Hkey;
    simpl; [|done].
  destruct (loop_trace resultkey (ply + 1) _ rest) as [tr'|] eqn:Htr;
    simpl; [|done].
  intros [= <-].
  assert (Hrest : Forall (emit_at resultkey ply board (mv :: rest)) tr').
  { eapply Forall_impl; [by apply IH|].
    intros e (i & mv' & s & Hi & Hply & Hcut & Hb & Hs & Hne & Hk).
    exists (S i), mv', s. repeat split; try done. lia. }
  destruct key as [key|]; [|done].
  constructor; [|done].
  apply ply_key_Some in Hkey as (s & Hs & Hne & ->).
  exists 0%nat, mv, s. simpl. repeat split; try done. lia.
Qed.

Lemma emits_inv game e :
  emits game e ->
  exists resultkey, result_key game = Some resultkey /\
    emit_at resultkey 0 (start_board game) (moves game) e.
Proof.
  intros (tr & Htr & He). unfold game_trace in Htr.
  destruct (result_key game) as [resultkey|].
  - exists resultkey. split; [done|].
    apply loop_trace_sound in Htr.
    rewrite Forall_forall in Htr. by apply Htr.
  - inversion Htr; subst. by apply elem_of_nil in He.
Qed.

(** The loop state when the loop is left. *)
Lemma ana_loop_final resultkey mvs : forall ply board m st,
  ply <= 400 ->
  ana_loop resultkey ply board m mvs = Some st ->
  st.1.1 = Z.min (ply + Z.of_nat (length mvs)) 401 /\
  st.1.2 = play board (take (Z.to_nat (400 - ply)) mvs).
Proof.
  induction mvs as [|mv rest IH]; intros ply board m st Hply; simpl.
  { intros [= <-]. simpl. split; [lia|]. by rewrite take_nil. }
  destruct (Z.ltb_spec 400 (ply + 1)) as [Hcut|Hle].
  { intros [= <-]. simpl. split; [lia|].
    by replace (Z.to_nat (400 - ply)) with 0%nat by lia. }
  destruct (ply_key resultkey board (ply + 1) (comment mv)) as [key|];
    simpl; [|done].
  destruct (match key with Some k => map_add m k 1 | None => Some m end)
    as [m1|]; simpl; [|done].
  intros Hst. apply IH in Hst as [Hp Hb]; [|lia].
  split; [lia|]. rewrite Hb.
  replace (Z.to_nat (400 - ply)) with (S (Z.to_nat (400 - (ply + 1)))) by lia.
  done.
Qed.

(** Moves behind the cutoff have no influence on the board or the table. *)
Lemma ana_loop_take resultkey mvs : forall ply board m,
  ply <= 400 ->
  ana_loop resultkey ply board m mvs ≫= (λ st, Some (st.1.2, st.2))
  = ana_loop resultkey ply board m (take (Z.to_nat (400 - ply)) mvs)
      ≫= (λ st, Some (st.1.2, st.2)).
Proof.
  induction mvs as [|mv rest IH]; intros ply board m Hply.
  { by rewrite take_nil. }
  destruct (decide (ply = 400)) as [->|Hne].
  { simpl. done. }
  replace (Z.to_nat (400 - ply)) with (S (Z.to_nat (400 - (ply + 1)))) by lia.
  simpl.
  destruct (Z.ltb_spec 400 (ply + 1)) as [|_]; [lia|].
  destruct (ply_key resultkey board (ply + 1) (comment mv)) as [key|];
    simpl; [|done].
  destruct (match key with Some k => map_add m k 1 | None => Some m end)
    as [m1|]; simpl; [|done].
  apply IH. lia.
Qed.

Lemma result_key_None game :
  headers game !! "Result"%string = None \/
  (exists r, headers game !! "Result"%string = Some r /\
             r <> "1-0"%string /\ r <> "0-1"%string /\ r <> "1/2-1/2"%string) ->
  result_key game = None.
Proof.
  unfold result_key. intros [->|(r & -> & H1 & H2 & H3)]; [done|].
  destruct (String.eqb_spec r "1-0"); [done|].
  destruct (String.eqb_spec r "0-1"); [done|].
  destruct (String.eqb_spec r "1/2-1/2"); done.
Qed.

Lemma result_key_Some game r resultkey :
  headers game !! "Result"%string = Some r ->
  result_key game = Some resultkey ->
  (r = "1-0"%string /\ resultkey = {| white := WIN; black := LOSS |}) \/
  (r = "0-1"%string /\ resultkey = {| white := LOSS; black := WIN |}) \/
  (r = "1/2-1/2"%string /\ resultkey = {| white := DRAW; black := DRAW |}).
Proof.
  unfold result_key. intros ->.
  destruct (String.eqb_spec r "1-0"); [intros [= <-]; auto|].
  destruct (String.eqb_spec r "0-1"); [intros [= <-]; auto|].
  destruct (String.eqb_spec r "1/2-1/2"); [intros [= <-]; auto|done].
Qed.

Lemma map_add_lookup m k n m' k' :
  map_add m k n = Some m' ->
  m' !! k' = if decide (k = k') then Some (default 0 (m !! k) + n) else m !! k'.
Proof.
  unfold map_add. destruct (CInt.fits _); [|done].
  intros [= <-]. apply lookup_insert.
Qed.

Lemma bump_all_dom ks : forall m m' k,
  bump_all ks m = Some m' -> is_Some (m' !! k) -> is_Some (m !! k) \/ k ∈ ks.
Proof.
  induction ks as [|a ks IH]; intros m m' k; simpl.
  { intros [= <-]. auto. }
  rewrite bump_all_cons.
  destruct (map_add m a 1) as [m1|] eqn:Hadd; simpl; [|done].
  intros Hb Hk. destruct (IH _ _ _ Hb Hk) as [Hm1|Hin].
  - rewrite (map_add_lookup _ _ _ _ k Hadd) in Hm1.
    destruct (decide (a = k)) as [->|]; [right; left|by left].
  - right. by right.
Qed.

End ExtractorFacts.


(** ** The score of some annotations *)

Example ply_score_plain : ply_score "+0.25/18" = Some 25.
Proof. vm_compute. reflexivity. Qed.

Example ply_score_negative : ply_score "-0.30/17" = Some (-30).
Proof. vm_compute. reflexivity. Qed.

Example ply_score_clamped : ply_score "-153.20/31" = Some (-1000).
Proof. vm_compute. reflexivity. Qed.

Example ply_score_mate : ply_score "+M7/24" = Some 1001.
Proof. vm_compute. reflexivity. Qed.

Example ply_score_book : ply_score "book" = Some no_score.
Proof. vm_compute. reflexivity. Qed.

Example ply_score_plain_text : ply_score "forced" = Some no_score.
Proof. vm_compute. reflexivity. Qed.

(** A one-character prefix: the mate test reads the terminator. *)
Example ply_score_short_prefix : ply_score "5/1" = Some 500.
Proof. vm_compute. reflexivity. Qed.

(** The product does not fit an [int]: the conversion is undefined. *)
Example ply_score_overflow : ply_score "99999999999/1" = None.
Proof. vm_compute. reflexivity. Qed.

(** ** Results on the score of one annotation *)

(** C3 (as amended): for a non-mate annotation prefix the stored score is
    obtained from the parsed value [v] by multiplying by 100 in single
    precision, converting the product to [int] (which discards the
    fractional part, rounding toward zero), clamping to [-1000, 1000] and
    only then rounding down to the nearest lower multiple of 5. *)
Theorem C3_numeric_score comment pos c1 t :
  find "/" comment = Some pos ->
  mate_check_read comment pos = Some c1 ->
  c1 <> "M"%char ->
  Flt.trunc (Flt.f32_mul (Flt.f32_of_int 100) (fast_stof (substr comment 0 pos))) = Some t ->
  CInt.fits t = true ->
  ply_score comment = Some (5 * (clamp t `div` 5)).
Proof.
  intros Hf Hr Hc1 Ht Hfit.
  apply (ply_score_numeric comment pos c1 t); try done.
  unfold centi_score, Flt.to_int. rewrite Ht. simpl.
  apply checked_Some. done.
Qed.

Lemma C3_witness : ply_score "7.01/10" = Some 700.
Proof.
  apply (C3_numeric_score "7.01/10" 4 "." 701).
  - vm_compute. reflexivity.
  - vm_compute. reflexivity.
  - discriminate.
  - vm_compute. reflexivity.
  - vm_compute. reflexivity.
Defined.

(** C3 as stated fails: for the annotation "-0.005/12" the product is -0.5;
    the conversion to [int] gives 0 and the stored score is 0, whereas
    clamping -0.5 and rounding it down to a multiple of 5 gives -5. *)
Lemma C3_counterexample :
  find "/" "-0.005/12" = Some 6%nat /\
  mate_check_read "-0.005/12" 6 = Some "0"%char /\
  ply_score "-0.005/12" = Some 0 /\
  spec_pipeline (fast_stof (substr "-0.005/12" 0 6)) = Some (-5) /\
  ply_score "-0.005/12" <> spec_pipeline (fast_stof (substr "-0.005/12" 0 6)).
Proof.
  repeat split; try (vm_compute; reflexivity).
  vm_compute. discriminate.
Qed.

(** C9: the read [match_score[1]] of the mate test.  When the annotation
    begins with the delimiter the prefix is empty, index 1 lies beyond its
    terminator, and the read (hence the score of the ply) is undefined. *)
Theorem C9_empty_prefix_read rest :
  find "/" (String "/" rest) = Some 0%nat /\
  String.eqb (String "/" rest) "book" = false /\
  substr (String "/" rest) 0 0 = ""%string /\
  mate_check_read (String "/" rest) 0 = None /\
  ply_score (String "/" rest) = None.
Proof.
  assert (Hsub : substr (String "/" rest) 0 0 = ""%string) by done.
  assert (Hread : mate_check_read (String "/" rest) 0 = None).
  { unfold mate_check_read. rewrite Hsub. done. }
  assert (Hbook : String.eqb (String "/" rest) "book" = false) by done.
  repeat split; try done.
Qed.

(** A prefix of at least one character makes the read defined. *)
Lemma mate_check_read_defined comment pos :
  find "/" comment = Some (S pos) -> is_Some (mate_check_read comment (S pos)).
Proof.
  intros Hf. unfold mate_check_read, substr, string_at.
  destruct comment as [|a comment]; [done|].
  simpl in Hf. destruct (Ascii.eqb a "/"); [done|].
  destruct (find "/" comment) as [p|] eqn:Hp; [|done].
  injection Hf as ->. simpl.
  destruct pos as [|pos].
  - destruct comment; simpl; eauto.
  - destruct comment as [|b comment]; [done|]. simpl. eauto.
Qed.

Section GameResults.
Context `{RulesEngine}.

(** C4: an annotation with the delimiter whose prefix has 'M' as second
    character is scored +1001 when the prefix starts with '+' and -1001
    when it starts with '-'; the key built for the ply carries that score. *)
Theorem C4_mate_scores (resultkey : ResultKey) (board : Board) (ply : Z)
    (comment : string) (pos : nat) (c0 : ascii) :
  find "/" comment = Some pos ->
  String.get 1 (substr comment 0 pos) = Some "M"%char ->
  String.get 0 (substr comment 0 pos) = Some c0 ->
  (c0 = "+"%char ->
     ply_score comment = Some 1001 /\
     ply_key resultkey board ply comment
       = Some (Some (make_key resultkey board ply 1001))) /\
  (c0 = "-"%char ->
     ply_score comment = Some (-1001) /\
     ply_key resultkey board ply comment
       = Some (Some (make_key resultkey board ply (-1001)))).
Proof.
  intros Hf H1 H0.
  assert (Hs : ply_score comment
               = Some (if Ascii.eqb c0 "+" then 1001 else -1001)).
  { unfold ply_score, mate_check_read.
    rewrite Hf, (find_Some_not_book _ _ Hf). simpl.
    rewrite (string_at_get _ _ _ H1). simpl.
    rewrite (string_at_get _ _ _ H0). simpl.
    by destruct (Ascii.eqb c0 "+"). }
  split; intros ->; (split; [done|]); unfold ply_key; rewrite Hs; done.
Qed.

(** C8: a game without result header, or with a result other than "1-0",
    "0-1" and "1/2-1/2", leaves the table as it is. *)
Theorem C8_unrecognised_result (m : map_t) (game : Game) :
  headers game !! "Result"%string = None \/
  (exists r, headers game !! "Result"%string = Some r /\
             r <> "1-0"%string /\ r <> "0-1"%string /\ r <> "1/2-1/2"%string) ->
  ana_game m game = Some m.
Proof.
  intros Hr. unfold ana_game. by rewrite (result_key_None _ Hr).
Qed.

(** C5: in a game with result "1-0" a key emitted with White to move has
    outcome WIN and one emitted with Black to move has outcome LOSS; with
    "0-1" it is the other way round; with "1/2-1/2" every key has outcome
    DRAW; any other or absent result gives no increment at all.  The board
    an increment is computed from is the start position after the moves
    before that ply, and the increments are all that [ana_game] does to
    the table. *)
Theorem C5_outcome_mapping (game : Game) :
  (forall e, emits game e ->
     e_board e = play (start_board game)
                      (take (Z.to_nat (e_ply e - 1)) (moves game)) /\
     (headers game !! "Result"%string = Some "1-0"%string ->
        outcome (e_key e) = match sideToMove (e_board e) with
                            | WHITE => WIN | BLACK => LOSS end) /\
     (headers game !! "Result"%string = Some "0-1"%string ->
        outcome (e_key e) = match sideToMove (e_board e) with
                            | WHITE => LOSS | BLACK => WIN end) /\
     (headers game !! "Result"%string = Some "1/2-1/2"%string ->
        outcome (e_key e) = DRAW)) /\
  (headers game !! "Result"%string = None \/
   (exists r, headers game !! "Result"%string = Some r /\
              r <> "1-0"%string /\ r <> "0-1"%string /\ r <> "1/2-1/2"%string) ->
   game_trace game = Some [] /\ forall m : map_t, ana_game m game = Some m) /\
  (forall m : map_t,
     ana_game m game = game_trace game ≫= λ tr, bump_all (e_key <$> tr) m).
Proof.
  split; [|split; [|intros m; apply ana_game_trace]].
  - intros e He.
    destruct (emits_inv game e He) as (rk & Hrk & Hat).
    destruct Hat as (i & mv & s & _ & Hply & _ & Hb & _ & _ & Hk).
    split.
    { rewrite Hb. by replace (Z.to_nat (e_ply e - 1)) with i by lia. }
    rewrite Hk. simpl.
    repeat split; intros Hr;
      destruct (result_key_Some _ _ _ Hr Hrk)
        as [[? ->]|[[? ->]|[? ->]]]; try done;
      simpl; by destruct (sideToMove (e_board e)).
  - intros Hr. pose proof (result_key_None _ Hr) as Hnone.
    split.
    + unfold game_trace. by rewrite Hnone.
    + intros m. unfold ana_game. by rewrite Hnone.
Qed.

(** C6: no key is produced for a ply beyond 400, and the game is left at
    the cutoff: the moves after the first 400 influence neither the table
    nor the board, which stays the position after (at most) 400 moves. *)
Theorem C6_cutoff (game : Game) (m : map_t) :
  (forall e, emits game e -> 1 <= e_ply e <= 400) /\
  ana_game m game
    = ana_game m {| headers := headers game; moves := take 400 (moves game) |} /\
  (forall resultkey st,
     ana_loop resultkey 0 (start_board game) m (moves game) = Some st ->
     st.1.2 = play (start_board game) (take 400 (moves game)) /\
     st.1.1 = Z.min (Z.of_nat (length (moves game))) 401).
Proof.
  split; [|split].
  - intros e He.
    destruct (emits_inv game e He) as (rk & _ & Hat).
    destruct Hat as (i & mv & s & _ & Hply & Hcut & _). lia.
  - unfold ana_game, result_key, start_board. simpl.
    destruct (headers game !! "Result"%string) as [r|]; [|done].
    match goal with
    | |- match ?x with _ => _ end = _ => destruct x as [rk|]; [|done]
    end.
    match goal with
    | |- ana_loop _ _ ?b _ _ ≫= _ = _ =>
        pose proof (ana_loop_take rk (moves game) 0 b m) as Ht
    end.
    change (Z.to_nat (400 - 0)) with 400%nat in Ht.
    specialize (Ht ltac:(lia)).
    match type of Ht with
    | ?x ≫= _ = ?y ≫= _ => destruct x as [[[p1 b1] m1]|], y as [[[p2 b2] m2]|]
    end; simpl in *; congruence.
  - intros rk st Hst.
    apply ana_loop_final in Hst as [Hp Hb]; [|lia].
    split; [exact Hb|]. rewrite Hp. lia.
Qed.

End GameResults.

(** ** Instances on concrete games *)


Lemma C4_witness :
  ("-"%char = "+"%char ->
     ply_score "-M3/20" = Some 1001 /\
     ply_key (H := Toy.engine) {| white := WIN; black := LOSS |} BLACK 8 "-M3/20"
       = Some (Some (mkKey LOSS 4 78 1001))) /\
  ("-"%char = "-"%char ->
     ply_score "-M3/20" = Some (-1001) /\
     ply_key (H := Toy.engine) {| white := WIN; black := LOSS |} BLACK 8 "-M3/20"
       = Some (Some (mkKey LOSS 4 78 (-1001)))).
Proof.
  apply (C4_mate_scores (H := Toy.engine) {| white := WIN; black := LOSS |}
           BLACK 8 "-M3/20" 3 "-").
  - vm_compute. reflexivity.
  - vm_compute. reflexivity.
  - vm_compute. reflexivity.
Defined.

Lemma C8_witness :
  ana_game (H := Toy.engine) {[ mkKey WIN 1 78 25 := 7 ]} (Toy.bare ["+1.00/9"]%string)
  = Some {[ mkKey WIN 1 78 25 := 7 ]} /\
  ana_game (H := Toy.engine) ∅ (Toy.game "*" ["+1.00/9"]%string) = Some ∅.
Proof.
  split.
  - apply (C8_unrecognised_result (H := Toy.engine)). left. vm_compute. reflexivity.
  - apply (C8_unrecognised_result (H := Toy.engine)). right.
    exists "*"%string.
    split; [vm_compute; reflexivity|].
    split; [discriminate|]. split; discriminate.
Defined.

Lemma C5_witness :
  outcome (mkKey LOSS 1 78 (-30)) = LOSS /\
  game_trace (H := Toy.engine) (Toy.bare ["+1.00/9"]%string) = Some [].
Proof.
  pose proof (C5_outcome_mapping (H := Toy.engine)
                (Toy.game "1-0" ["+0.25/18"; "-0.30/17"]%string)) as [Hemit _].
  pose proof (C5_outcome_mapping (H := Toy.engine)
                (Toy.bare ["+1.00/9"]%string)) as (_ & Hskip & _).
  split.
  - destruct (Hemit (Toy.emit 2 BLACK (mkKey LOSS 1 78 (-30))))
      as (_ & Hwin & _).
    + eexists. split; [vm_compute; reflexivity|].
      apply list_elem_of_further, list_elem_of_here.
    + apply Hwin. vm_compute. reflexivity.
  - apply Hskip. left. vm_compute. reflexivity.
Defined.

Lemma C6_witness :
  1 <= 2 <= 400 /\
  play (H := Toy.engine) WHITE (take 400 (Toy.mv <$> replicate 401 "book"%string))
  = WHITE.
Proof.
  pose proof (C6_cutoff (H := Toy.engine)
                (Toy.game "1-0" ["+0.25/18"; "-0.30/17"]%string) ∅) as (Hply & _ & _).
  pose proof (C6_cutoff (H := Toy.engine)
                (Toy.game "1-0" (replicate 401 "book"%string)) ∅) as (_ & _ & Hend).
  split.
  - apply (Hply (Toy.emit 2 BLACK (mkKey LOSS 1 78 (-30)))).
    eexists. split; [vm_compute; reflexivity|].
    apply list_elem_of_further, list_elem_of_here.
  - destruct (Hend {| white := WIN; black := LOSS |}
                (401, WHITE : @Board Toy.engine, ∅)) as [Hb _].
    + vm_compute. reflexivity.
    + symmetry. exact Hb.
Defined.

(** ** The chunk planner *)

Lemma chunks_size_spec n t :
  0 <= n < 2 ^ 31 -> 1 <= t < 2 ^ 31 ->
  chunks_size n t = Some ((n + t - 1) `div` t).
Proof.
  intros Hn Ht. unfold chunks_size, CInt.to_size_t.
  rewrite (Z.mod_small t) by lia.
  destruct (Z.eqb_spec t 0); [lia|].
  rewrite (Z.mod_small (n + t - 1)) by lia.
  f_equal. apply to_int_small. split.
  - apply Z.div_pos; lia.
  - apply Z.div_lt_upper_bound; nia.
Qed.

Lemma ceil_div_step a cs : 1 <= cs -> (a + cs + cs - 1) `div` cs = (a + cs - 1) `div` cs + 1.
Proof.
  intros Hcs. replace (a + cs + cs - 1) with ((a + cs - 1) + 1 * cs) by lia.
  apply Z.div_add. lia.
Qed.

Lemma ceil_div_one a cs : 1 <= a <= cs -> (a + cs - 1) `div` cs = 1.
Proof.
  intros Ha. symmetry. apply (Z.div_unique _ _ 1 (a - 1)); lia.
Qed.

Lemma ceil_div_mul_ge n t : 1 <= t -> n <= t * ((n + t - 1) `div` t).
Proof.
  intros Ht.
  pose proof (Z.div_mod (n + t - 1) t ltac:(lia)) as Hdm.
  pose proof (Z.mod_pos_bound (n + t - 1) t ltac:(lia)) as Hb.
  lia.
Qed.

Lemma split_loop_cons {A} fuel cs (a : A) rest acc :
  split_loop (S fuel) cs (a :: rest) acc =
  let n := Z.min cs (CInt.to_int (Z.of_nat (length (a :: rest)))) in
  if n <? 0 then None
  else split_loop fuel cs (drop (Z.to_nat n) (a :: rest))
                  (acc ++ [take (Z.to_nat n) (a :: rest)]).
Proof. reflexivity. Qed.

(** Whenever the loop returns, the chunks are a contiguous cut of the list. *)
Lemma split_loop_concat {A} cs : forall fuel (rest : list A) acc r,
  split_loop fuel cs rest acc = Some r -> concat r = concat acc ++ rest.
Proof.
  induction fuel as [|fuel IH]; intros rest acc r.
  { destruct rest; [|done]. intros [= <-]. by rewrite app_nil_r. }
  destruct rest as [|a rest].
  { intros [= <-]. by rewrite app_nil_r. }
  rewrite split_loop_cons. cbv zeta.
  destruct (_ <? 0); [done|].
  intros Hr. apply IH in Hr. rewrite Hr, concat_app. simpl concat.
  by rewrite app_nil_r, <- app_assoc, take_drop.
Qed.

Lemma files_chunked_concat {A} (files_pgn : list A) hc chunks :
  files_chunked files_pgn hc = Some chunks -> concat chunks = files_pgn.
Proof.
  unfold files_chunked, split_chunks.
  destruct (target_chunks hc) as [t|]; simpl; [|done].
  destruct (chunks_size _ t) as [cs|]; simpl; [|done].
  intros Hr. by apply split_loop_concat in Hr.
Qed.

(** What the loop of [split_chunks] produces for a positive chunk size. *)
Lemma split_loop_spec {A} cs :
  1 <= cs ->
  forall (fuel : nat) (rest : list A) (acc : list (list A)),
    (length rest <= fuel)%nat ->
    Z.of_nat (length rest) < 2 ^ 31 ->
    exists cks,
      split_loop fuel cs rest acc = Some (acc ++ cks) /\
      concat cks = rest /\
      Z.of_nat (length cks) = (Z.of_nat (length rest) + cs - 1) `div` cs /\
      Forall (λ c, 1 <= Z.of_nat (length c) <= cs) cks /\
      (forall (i : nat) c, cks !! i = Some c -> (S i < length cks)%nat ->
                           Z.of_nat (length c) = cs).
Proof.
  intros Hcs. induction fuel as [|fuel IH]; intros rest acc Hfuel Hlen.
  { destruct rest; [|simpl in Hfuel; lia].
    exists []. simpl. rewrite app_nil_r.
    split; [done|]. split; [done|].
    split; [symmetry; apply Z.div_small; lia|].
    split; [constructor|].
    intros i c Hi. by rewrite lookup_nil in Hi. }
  destruct rest as [|a rest].
  { exists []. simpl. rewrite app_nil_r.
    split; [done|]. split; [done|].
    split; [symmetry; apply Z.div_small; lia|].
    split; [constructor|].
    intros i c Hi. by rewrite lookup_nil in Hi. }
  rewrite split_loop_cons.
  assert (Hpos : 1 <= Z.of_nat (length (a :: rest))) by (simpl; lia).
  remember (a :: rest) as full eqn:Hfull. clear Hfull a rest.
  rewrite to_int_small by lia. cbv zeta.
  set (n := Z.min cs (Z.of_nat (length full))).
  assert (Hn : 1 <= n <= cs /\ n <= Z.of_nat (length full)) by lia.
  destruct (Z.ltb_spec n 0) as [|_]; [lia|].
  destruct (IH (drop (Z.to_nat n) full) (acc ++ [take (Z.to_nat n) full]))
    as (cks & Hrun & Hcat & Hnum & Hall & Hfull).
  { rewrite length_drop. lia. }
  { rewrite length_drop. lia. }
  assert (Htake : Z.of_nat (length (take (Z.to_nat n) full)) = n).
  { rewrite length_take. lia. }
  rewrite length_drop in Hnum.
  exists (take (Z.to_nat n) full :: cks).
  split; [by rewrite Hrun, <- app_assoc|].
  split; [simpl; rewrite Hcat; apply take_drop|].
  assert (Hcase : (Z.of_nat (length full) <= cs /\ cks = []) \/
                  (cs < Z.of_nat (length full) /\ n = cs)).
  { destruct (Z.le_gt_cases (Z.of_nat (length full)) cs) as [Hle|Hgt];
      [left|right; lia].
    split; [done|].
    apply length_zero_iff_nil.
    replace (Z.of_nat (length full - Z.to_nat n)) with 0 in Hnum by lia.
    rewrite Z.div_small in Hnum by lia. lia. }
  split; [|split].
  - simpl length. rewrite Nat2Z.inj_succ.
    destruct Hcase as [[Hle ->]|[Hgt Hncs]].
    + rewrite ceil_div_one by lia. done.
    + rewrite Hnum.
      replace (Z.of_nat (length full))
        with (Z.of_nat (length full - Z.to_nat n) + cs) by lia.
      rewrite ceil_div_step by lia. lia.
  - constructor; [lia|done].
  - intros [|i] c Hi Hlt; simpl in Hi, Hlt.
    + injection Hi as <-. rewrite Htake.
      destruct Hcase as [[_ ->]|[_ ?]]; [simpl in Hlt; lia|done].
    + apply (Hfull i c Hi). lia.
Qed.

(** ** Counting in tables *)


Lemma table_ok_empty : table_ok ∅.
Proof. intros k c Hk. by rewrite lookup_empty in Hk. Qed.

Lemma cnt_empty k : cnt ∅ k = 0.
Proof. unfold cnt. by rewrite lookup_empty. Qed.

Lemma table_ok_cnt m k : table_ok m -> 0 <= cnt m k <= CInt.INT_MAX.
Proof.
  intros Hm. unfold cnt. destruct (m !! k) as [c|] eqn:Hk; simpl.
  - specialize (Hm _ _ Hk). lia.
  - unfold CInt.INT_MAX. lia.
Qed.

Lemma table_ok_lookup m k : table_ok m ->
  m !! k = if decide (cnt m k = 0) then None else Some (cnt m k).
Proof.
  intros Hm. unfold cnt. destruct (m !! k) as [c|] eqn:Hk; simpl.
  - specialize (Hm _ _ Hk). destruct (decide (c = 0)); [lia|done].
  - done.
Qed.

Lemma table_ext m1 m2 :
  table_ok m1 -> table_ok m2 -> (forall k, cnt m1 k = cnt m2 k) -> m1 = m2.
Proof.
  intros H1 H2 Hc. apply map_eq. intros k.
  rewrite (table_ok_lookup m1 k H1), (table_ok_lookup m2 k H2), Hc. done.
Qed.

Lemma map_add_Some m k n m' :
  map_add m k n = Some m' <->
  CInt.fits (cnt m k + n) = true /\ m' = <[k := cnt m k + n]> m.
Proof.
  unfold map_add, cnt. destruct (CInt.fits _); split.
  - intros [= <-]. done.
  - intros [_ ->]. done.
  - done.
  - intros [? _]. done.
Qed.

Lemma cnt_insert m k c k' :
  cnt (<[k := c]> m) k' = if decide (k = k') then c else cnt m k'.
Proof. unfold cnt. rewrite lookup_insert. by destruct (decide (k = k')). Qed.

Lemma map_add_sound m k n m' :
  table_ok m -> 1 <= n -> map_add m k n = Some m' ->
  table_ok m' /\
  forall k', cnt m' k' = cnt m k' + (if decide (k = k') then n else 0).
Proof.
  intros Hm Hn [Hfit ->]%map_add_Some.
  apply fits_spec in Hfit. pose proof (table_ok_cnt m k Hm) as Hk.
  split.
  - intros k' c. rewrite lookup_insert.
    destruct (decide (k = k')) as [->|]; [|apply Hm].
    intros [= <-]. lia.
  - intros k'. rewrite cnt_insert.
    destruct (decide (k = k')) as [->|]; lia.
Qed.

Lemma map_add_defined m k n :
  table_ok m -> 1 <= n -> cnt m k + n <= CInt.INT_MAX ->
  is_Some (map_add m k n).
Proof.
  intros Hm Hn Hle. exists (<[k := cnt m k + n]> m).
  apply map_add_Some. split; [|done].
  apply fits_spec. pose proof (table_ok_cnt m k Hm).
  unfold CInt.INT_MIN. lia.
Qed.

Lemma weight_nonneg k ps : Forall (λ p, 1 <= p.2) ps -> 0 <= weight k ps.
Proof.
  induction 1 as [|p ps Hp _ IH]; simpl; [done|].
  destruct (decide (p.1 = k)); lia.
Qed.

Lemma add_pairs_sound ps : forall m m',
  table_ok m -> Forall (λ p, 1 <= p.2) ps ->
  add_pairs m ps = Some m' ->
  table_ok m' /\ forall k, cnt m' k = cnt m k + weight k ps.
Proof.
  induction ps as [|p ps IH]; intros m m' Hm Hps; simpl.
  { intros [= <-]. split; [done|]. intros k. lia. }
  apply Forall_cons in Hps as [Hp Hps].
  unfold add_pairs. simpl.
  destruct (map_add m p.1 p.2) as [m1|] eqn:Hadd; simpl; [|done].
  intros Hrest.
  destruct (map_add_sound _ _ _ _ Hm Hp Hadd) as [Hm1 Hc1].
  destruct (IH _ _ Hm1 Hps Hrest) as [Hm' Hc'].
  split; [done|]. intros k. rewrite Hc', Hc1. lia.
Qed.

Lemma add_pairs_defined ps : forall m,
  table_ok m -> Forall (λ p, 1 <= p.2) ps ->
  (forall k, cnt m k + weight k ps <= CInt.INT_MAX) ->
  is_Some (add_pairs m ps).
Proof.
  induction ps as [|p ps IH]; intros m Hm Hps Hle.
  { by exists m. }
  apply Forall_cons in Hps as [Hp Hps].
  unfold add_pairs. simpl.
  destruct (map_add_defined m p.1 p.2 Hm Hp) as [m1 Hadd].
  { specialize (Hle p.1). simpl in Hle.
    pose proof (weight_nonneg p.1 ps Hps).
    destruct (decide (p.1 = p.1)); [lia|done]. }
  rewrite Hadd. simpl.
  destruct (map_add_sound _ _ _ _ Hm Hp Hadd) as [Hm1 Hc1].
  apply IH; [done..|].
  intros k. specialize (Hle k). simpl in Hle. rewrite Hc1. lia.
Qed.

Lemma occ_cons k a ks :
  occ k (a :: ks) = (if decide (a = k) then 1 else 0) + occ k ks.
Proof.
  unfold occ. simpl.
  destruct (Key_eq_dec a k), (decide (a = k)); try done; lia.
Qed.

Lemma occ_app k ks1 ks2 : occ k (ks1 ++ ks2) = occ k ks1 + occ k ks2.
Proof. unfold occ. rewrite count_occ_app. lia. Qed.

Lemma occ_nonneg k ks : 0 <= occ k ks.
Proof. unfold occ. lia. Qed.

Lemma occ_pos_iff k ks : 0 < occ k ks <-> k ∈ ks.
Proof.
  unfold occ. rewrite list_elem_of_In, (count_occ_In Key_eq_dec). lia.
Qed.

Lemma occ_perm k ks1 ks2 : ks1 ≡ₚ ks2 -> occ k ks1 = occ k ks2.
Proof.
  intros Hp. unfold occ. f_equal.
  by apply (Permutation_count_occ Key_eq_dec).
Qed.

Lemma weight_ones k ks : weight k ((λ k', (k', 1)) <$> ks) = occ k ks.
Proof.
  induction ks as [|a ks IH]; [done|].
  rewrite occ_cons, <- IH. done.
Qed.

Lemma weight_notin k ps : k ∉ ps.*1 -> weight k ps = 0.
Proof.
  induction ps as [|p ps IH]; simpl; [done|].
  intros Hk. apply not_elem_of_cons in Hk as [Hne Hk].
  destruct (decide (p.1 = k)); [done|]. rewrite IH; done.
Qed.

Lemma weight_list_to_map k ps :
  NoDup ps.*1 -> weight k ps = cnt (list_to_map ps) k.
Proof.
  induction ps as [|[k' c] ps IH]; simpl; [done|].
  intros [Hk' Hnd]%NoDup_cons. rewrite cnt_insert. simpl.
  destruct (decide (k' = k)) as [->|].
  - rewrite weight_notin by done. lia.
  - rewrite IH by done. lia.
Qed.

Lemma weight_map_to_list k (m : map_t) : weight k (map_to_list m) = cnt m k.
Proof.
  rewrite weight_list_to_map by apply NoDup_fst_map_to_list.
  by rewrite list_to_map_to_list.
Qed.

Lemma table_ok_pairs (m : map_t) :
  table_ok m -> Forall (λ p, 1 <= p.2) (map_to_list m).
Proof.
  intros Hm. apply Forall_forall. intros [k c] Hin.
  apply elem_of_map_to_list in Hin. simpl. specialize (Hm _ _ Hin). lia.
Qed.

Lemma ones_pairs (ks : list Key) :
  Forall (λ p : Key * Z, 1 <= p.2) ((λ k', (k', 1)) <$> ks).
Proof. apply Forall_fmap, Forall_forall. intros k _. simpl. lia. Qed.

(** ** Order independence of the increments *)

Lemma map_add_comm m x a y b :
  x <> y ->
  map_add m x a ≫= (λ m1, map_add m1 y b)
  = map_add m y b ≫= (λ m1, map_add m1 x a).
Proof.
  intros Hne. unfold map_add.
  destruct (CInt.fits (default 0 (m !! x) + a)) eqn:Hx,
           (CInt.fits (default 0 (m !! y) + b)) eqn:Hy; simpl;
    rewrite ?lookup_insert_ne by done; rewrite ?Hx, ?Hy; try done.
  by rewrite insert_insert_ne.
Qed.

Lemma add_pairs_perm ps1 ps2 :
  ps1 ≡ₚ ps2 -> NoDup ps1.*1 -> forall m, add_pairs m ps1 = add_pairs m ps2.
Proof.
  unfold add_pairs.
  induction 1 as [|p ps1 ps2 _ IH|p q ps|ps1 ps2 ps3 H12 IH12 _ IH23];
    intros Hnd m; simpl.
  - done.
  - apply NoDup_cons in Hnd as [_ Hnd].
    destruct (map_add m p.1 p.2); simpl; [by apply IH|done].
  - apply NoDup_cons in Hnd as [Hq _].
    assert (Hne : q.1 <> p.1).
    { intros Heq. apply Hq. rewrite Heq. left. }
    pose proof (map_add_comm m q.1 q.2 p.1 p.2 Hne) as Hc.
    destruct (map_add m q.1 q.2) as [m1|], (map_add m p.1 p.2) as [m2|];
      simpl in *; try done.
    + by rewrite Hc.
    + by rewrite Hc.
    + by rewrite <- Hc.
  - rewrite IH12 by done. apply IH23.
    by rewrite <- H12.
Qed.

Section Aggregation.
Context `{RulesEngine}.
Variable read_games : string -> list Game.

Lemma bump_all_pairs ks : forall m,
  bump_all ks m = add_pairs m ((λ k', (k', 1)) <$> ks).
Proof.
  induction ks as [|k ks IH]; intros m; [done|].
  rewrite bump_all_cons. unfold add_pairs. simpl.
  destruct (map_add m k 1); simpl; [apply IH|done].
Qed.

Lemma bump_all_sound ks m m' :
  table_ok m -> bump_all ks m = Some m' ->
  table_ok m' /\ forall k, cnt m' k = cnt m k + occ k ks.
Proof.
  rewrite bump_all_pairs. intros Hm Hb.
  destruct (add_pairs_sound _ _ _ Hm (ones_pairs ks) Hb) as [Hm' Hc].
  split; [done|]. intros k. by rewrite Hc, weight_ones.
Qed.

Lemma bump_all_defined ks m :
  table_ok m -> (forall k, cnt m k + occ k ks <= CInt.INT_MAX) ->
  is_Some (bump_all ks m).
Proof.
  rewrite bump_all_pairs. intros Hm Hle.
  apply add_pairs_defined; [done|apply ones_pairs|].
  intros k. rewrite weight_ones. apply Hle.
Qed.

Lemma bump_all_perm ks1 ks2 :
  ks1 ≡ₚ ks2 -> forall m, bump_all ks1 m = bump_all ks2 m.
Proof.
  induction 1 as [|k ks1 ks2 _ IH|k1 k2 ks|ks1 ks2 ks3 _ IH12 _ IH23]; intros m.
  - done.
  - rewrite !bump_all_cons.
    destruct (map_add m k 1); simpl; [apply IH|done].
  - rewrite !bump_all_cons.
    destruct (decide (k2 = k1)) as [->|Hne]; [done|].
    pose proof (map_add_comm m k2 1 k1 1 Hne) as Hc.
    destruct (map_add m k2 1) as [m1|], (map_add m k1 1) as [m2|];
      simpl in *; rewrite ?bump_all_cons; try done.
    + by rewrite Hc.
    + by rewrite Hc.
    + by rewrite <- Hc.
  - by rewrite IH12.
Qed.

(** *** The merge of a local table *)

Lemma merge_sound g l g' :
  table_ok g -> table_ok l -> merge g l = Some g' ->
  table_ok g' /\ forall k, cnt g' k = cnt g k + cnt l k.
Proof.
  intros Hg Hl Hm.
  destruct (add_pairs_sound _ _ _ Hg (table_ok_pairs l Hl) Hm) as [Hg' Hc].
  split; [done|]. intros k. by rewrite Hc, weight_map_to_list.
Qed.

Lemma merge_defined g l :
  table_ok g -> table_ok l ->
  (forall k, cnt g k + cnt l k <= CInt.INT_MAX) ->
  is_Some (merge g l).
Proof.
  intros Hg Hl Hle.
  apply add_pairs_defined; [done|by apply table_ok_pairs|].
  intros k. rewrite weight_map_to_list. apply Hle.
Qed.

(** The result of the merge does not depend on the order in which the
    local table is iterated. *)
Lemma merge_iteration_order g (l : map_t) ps :
  ps ≡ₚ map_to_list l -> add_pairs g ps = merge g l.
Proof.
  intros Hp. symmetry. apply add_pairs_perm; [done|].
  apply NoDup_fst_map_to_list.
Qed.

(** Counting a list of keys in a private table and merging it is the same
    as counting the keys in the global table directly. *)
Lemma task_merge ks g :
  table_ok g -> bump_all ks ∅ ≫= merge g = bump_all ks g.
Proof.
  intros Hg. apply option_eq_by_Some; intros g'.
  - destruct (bump_all ks ∅) as [l|] eqn:Hl; simpl; [|done].
    intros Hm.
    destruct (bump_all_sound _ _ _ table_ok_empty Hl) as [Hlok Hlc].
    destruct (merge_sound _ _ _ Hg Hlok Hm) as [Hg'ok Hg'c].
    destruct (bump_all_defined ks g Hg) as [g'' Hg''].
    { intros k. pose proof (table_ok_cnt g' k Hg'ok) as Hb.
      rewrite Hg'c, Hlc, cnt_empty in Hb. lia. }
    rewrite Hg''. f_equal.
    destruct (bump_all_sound _ _ _ Hg Hg'') as [Hg''ok Hg''c].
    apply table_ext; [done..|].
    intros k. rewrite Hg''c, Hg'c, Hlc, cnt_empty. lia.
  - intros Hb.
    destruct (bump_all_sound _ _ _ Hg Hb) as [Hg'ok Hg'c].
    assert (Hbound : forall k, cnt g k + occ k ks <= CInt.INT_MAX).
    { intros k. pose proof (table_ok_cnt g' k Hg'ok) as Hk.
      rewrite Hg'c in Hk. lia. }
    destruct (bump_all_defined ks ∅ table_ok_empty) as [l Hl].
    { intros k. rewrite cnt_empty.
      specialize (Hbound k). pose proof (table_ok_cnt g k Hg). lia. }
    rewrite Hl. simpl.
    destruct (bump_all_sound _ _ _ table_ok_empty Hl) as [Hlok Hlc].
    assert (Hlc' : forall k, cnt l k = occ k ks).
    { intros k. rewrite Hlc, cnt_empty. lia. }
    destruct (merge_defined g l Hg Hlok) as [g'' Hg''].
    { intros k. rewrite Hlc'. apply Hbound. }
    rewrite Hg''. f_equal.
    destruct (merge_sound _ _ _ Hg Hlok Hg'') as [Hg''ok Hg''c].
    apply table_ext; [done..|].
    intros k. by rewrite Hg''c, Hg'c, Hlc'.
Qed.

End Aggregation.

(** ** From games to files to chunks *)

Section Runs.
Context `{RulesEngine}.
Variable read_games : string -> list Game.

Lemma keys_step (x1 x2 : option (list Key)) (m : map_t) :
  (x1 ≫= λ ks1, bump_all ks1 m) ≫= (λ m1, x2 ≫= λ ks2, bump_all ks2 m1)
  = (x1 ≫= λ ks1, x2 ≫= λ ks2, Some (ks1 ++ ks2)) ≫= λ ks, bump_all ks m.
Proof.
  destruct x1 as [ks1|]; simpl; [|done].
  destruct (bump_all ks1 m) as [m1|] eqn:Hb, x2 as [ks2|]; simpl; try done;
    by rewrite bump_all_app, Hb.
Qed.

Lemma all_keys_app gs1 gs2 :
  all_keys (gs1 ++ gs2)
  = all_keys gs1 ≫= λ ks1, all_keys gs2 ≫= λ ks2, Some (ks1 ++ ks2).
Proof.
  induction gs1 as [|g gs1 IH]; simpl.
  { by destruct (all_keys gs2). }
  destruct (game_keys g) as [k0|]; simpl; [|done].
  rewrite IH.
  destruct (all_keys gs1) as [k1|]; simpl; [|done].
  destruct (all_keys gs2) as [k2|]; simpl; [|done].
  by rewrite app_assoc.
Qed.

Lemma ana_games_keys games : forall m,
  foldlM ana_game m games = all_keys games ≫= λ ks, bump_all ks m.
Proof.
  induction games as [|g games IH]; intros m; [done|].
  change (all_keys (g :: games)) with
    (game_keys g ≫= λ ks1, all_keys games ≫= λ ks2, Some (ks1 ++ ks2)).
  rewrite <- keys_step, <- ana_game_keys. simpl.
  destruct (ana_game m g); simpl; [apply IH|done].
Qed.

Lemma ana_files_keys files : forall m,
  ana_files read_games m files
  = all_keys (games_of read_games files) ≫= λ ks, bump_all ks m.
Proof.
  induction files as [|f files IH]; intros m; [done|].
  change (games_of read_games (f :: files))
    with (read_games f ++ games_of read_games files).
  rewrite all_keys_app, <- keys_step, <- ana_games_keys.
  unfold ana_files. simpl.
  destruct (foldlM ana_game m (read_games f)); simpl; [apply IH|done].
Qed.

Lemma games_of_app files1 files2 :
  games_of read_games (files1 ++ files2)
  = games_of read_games files1 ++ games_of read_games files2.
Proof. unfold games_of. apply bind_app. Qed.

Lemma task_keys g files :
  table_ok g ->
  task read_games g files
  = all_keys (games_of read_games files) ≫= λ ks, bump_all ks g.
Proof.
  intros Hg. unfold task. rewrite ana_files_keys.
  destruct (all_keys (games_of read_games files)); simpl; [|done].
  by apply task_merge.
Qed.

(** Whatever the chunks and the order of the merges: the global table is
    the one obtained by counting the keys of all games directly. *)
Lemma aggregate_keys chunks : forall g,
  table_ok g ->
  foldlM (task read_games) g chunks
  = all_keys (games_of read_games (concat chunks)) ≫= λ ks, bump_all ks g.
Proof.
  induction chunks as [|c chunks IH]; intros g Hg; [done|].
  simpl concat. rewrite games_of_app, all_keys_app, <- keys_step.
  rewrite <- task_keys by done. simpl.
  destruct (task read_games g c) as [g1|] eqn:Hg1; simpl; [|done].
  apply IH.
  rewrite task_keys in Hg1 by done.
  destruct (all_keys (games_of read_games c)) as [ks|]; simpl in Hg1; [|done].
  by destruct (bump_all_sound _ _ _ Hg Hg1).
Qed.

Lemma all_keys_perm gs1 gs2 :
  gs1 ≡ₚ gs2 ->
  forall ks1, all_keys gs1 = Some ks1 ->
              exists ks2, all_keys gs2 = Some ks2 /\ ks1 ≡ₚ ks2.
Proof.
  induction 1 as [|g gs1 gs2 _ IH|g1 g2 gs|gs1 gs2 gs3 _ IH12 _ IH23];
    intros ks; simpl.
  - intros [= <-]. by exists [].
  - destruct (game_keys g) as [k0|]; simpl; [|done].
    destruct (all_keys gs1) as [k1|]; simpl; [|done].
    intros [= <-]. destruct (IH k1 eq_refl) as (k2 & -> & Hp).
    exists (k0 ++ k2). simpl. by rewrite Hp.
  - destruct (game_keys g2) as [k2|]; simpl; [|done].
    destruct (game_keys g1) as [k1|]; simpl; [|done].
    destruct (all_keys gs) as [k|]; simpl; [|done].
    intros [= <-]. exists (k1 ++ k2 ++ k). split; [done|].
    rewrite !app_assoc. apply Permutation_app_tail, Permutation_app_comm.
  - intros Hks. destruct (IH12 _ Hks) as (k2 & Hk2 & Hp12).
    destruct (IH23 _ Hk2) as (k3 & Hk3 & Hp23).
    exists k3. split; [done|]. by rewrite Hp12.
Qed.

Lemma keys_run_perm gs1 gs2 m :
  gs1 ≡ₚ gs2 ->
  all_keys gs1 ≫= (λ ks, bump_all ks m) = all_keys gs2 ≫= (λ ks, bump_all ks m).
Proof.
  assert (Hhalf : forall a b, a ≡ₚ b -> forall m',
            all_keys a ≫= (λ ks, bump_all ks m) = Some m' ->
            all_keys b ≫= (λ ks, bump_all ks m) = Some m').
  { intros a b Hp m'.
    destruct (all_keys a) as [ka|] eqn:Ha; simpl; [|done].
    destruct (all_keys_perm _ _ Hp _ Ha) as (kb & -> & Hk). simpl.
    by rewrite (bump_all_perm _ _ Hk). }
  intros Hp. apply option_eq_by_Some; intros m'; by apply Hhalf.
Qed.

Lemma games_of_perm files1 files2 :
  files1 ≡ₚ files2 -> games_of read_games files1 ≡ₚ games_of read_games files2.
Proof. intros Hp. unfold games_of. by rewrite Hp. Qed.

Lemma aggregate_sound chunks T :
  aggregate read_games chunks = Some T ->
  table_ok T /\
  exists ks, all_keys (games_of read_games (concat chunks)) = Some ks /\
             forall k, cnt T k = occ k ks.
Proof.
  unfold aggregate. rewrite aggregate_keys by apply table_ok_empty.
  destruct (all_keys (games_of read_games (concat chunks))) as [ks|];
    simpl; [|done].
  intros Hb.
  destruct (bump_all_sound _ _ _ table_ok_empty Hb) as [HT Hc].
  split; [done|]. exists ks. split; [done|].
  intros k. rewrite Hc, cnt_empty. lia.
Qed.

Lemma aggregate_perm chunks1 chunks2 :
  concat chunks1 ≡ₚ concat chunks2 ->
  aggregate read_games chunks1 = aggregate read_games chunks2.
Proof.
  intros Hp. unfold aggregate.
  rewrite !aggregate_keys by apply table_ok_empty.
  by apply keys_run_perm, games_of_perm.
Qed.

(** The keys of a list of games are keys of increments of its games. *)
Lemma all_keys_emitted games : forall ks k,
  all_keys games = Some ks -> k ∈ ks ->
  exists game e, game ∈ games /\ emits game e /\ e_key e = k.
Proof.
  induction games as [|g games IH]; intros ks k; simpl.
  { intros [= <-] Hk. by apply elem_of_nil in Hk. }
  destruct (game_keys g) as [k0|] eqn:Hg; simpl; [|done].
  destruct (all_keys games) as [k1|]; simpl; [|done].
  intros [= <-] [Hk|Hk]%elem_of_app.
  - unfold game_keys in Hg.
    destruct (game_trace g) as [tr|] eqn:Htr; simpl in Hg; [|done].
    injection Hg as <-.
    apply list_elem_of_fmap in Hk as (e & -> & He).
    exists g, e. split; [left|]. split; [by exists tr|done].
  - destruct (IH _ _ eq_refl Hk) as (g' & e & Hg' & He & Hke).
    exists g', e. split; [by right|done].
Qed.

Lemma emitted_score_retained game e :
  emits game e -> retained_score (score (e_key e)) /\ score (e_key e) <> no_score.
Proof.
  intros He. destruct (emits_inv game e He) as (rk & _ & Hat).
  destruct Hat as (i & mv & s & _ & _ & _ & _ & Hs & Hne & ->). simpl.
  destruct (ply_score_cases _ _ Hs); done.
Qed.

Lemma concat_perm {A} (l1 l2 : list (list A)) :
  l1 ≡ₚ l2 -> concat l1 ≡ₚ concat l2.
Proof.
  induction 1 as [|x l1 l2 _ IH|x y l|l1 l2 l3 _ IH12 _ IH23]; simpl.
  - done.
  - by rewrite IH.
  - rewrite !app_assoc. apply Permutation_app_tail, Permutation_app_comm.
  - by rewrite IH12.
Qed.

(** The table [main] ends with depends neither on the number of chunks the
    hardware parallelism leads to nor on the order the tasks take the lock. *)
Lemma main_schedule_independent files_pgn hc1 hc2 chunks1 chunks2 order1 order2 :
  files_chunked files_pgn hc1 = Some chunks1 ->
  files_chunked files_pgn hc2 = Some chunks2 ->
  order1 ≡ₚ chunks1 -> order2 ≡ₚ chunks2 ->
  aggregate read_games order1 = aggregate read_games order2.
Proof.
  intros H1%files_chunked_concat H2%files_chunked_concat Ho1 Ho2.
  apply aggregate_perm.
  by rewrite (concat_perm _ _ Ho1), (concat_perm _ _ Ho2), H1, H2.
Qed.

(** ** Results on the aggregation *)

(** C1: the count the final global table holds for a key is the number
    of plies, over all processed games, that map to the key; and the table
    is the same for every partition of the files into chunks and every
    order in which the chunk tables are merged. *)
Theorem C1_merge_order_independent (chunks1 chunks2 : list (list string)) :
  concat chunks1 ≡ₚ concat chunks2 ->
  aggregate read_games chunks1 = aggregate read_games chunks2 /\
  forall T, aggregate read_games chunks1 = Some T ->
    exists ks, all_keys (games_of read_games (concat chunks1)) = Some ks /\
      forall k, default 0 (T !! k) = occ k ks /\
                (is_Some (T !! k) <-> k ∈ ks).
Proof.
  intros Hp. split.
  - by apply aggregate_perm.
  - intros T HT. destruct (aggregate_sound _ _ HT) as (Hok & ks & Hks & Hc).
    exists ks. split; [done|]. intros k. split; [apply Hc|].
    rewrite <- occ_pos_iff, <- Hc, (table_ok_lookup T k Hok).
    pose proof (table_ok_cnt T k Hok).
    destruct (decide (cnt T k = 0)) as [->|].
    + split; [by intros [? ?]|lia].
    + split; [lia|eauto].
Qed.

(** C2: a key stored in a frequency table by the extractor, be it the
    table a game is analysed into or the global table after the merges, has
    a score that is a multiple of 5 in [-1000, 1000], or 1001, or -1001;
    never the no-score value 1002. *)
Theorem C2_retained_scores (key : Key) :
  (forall (m m' : map_t) (game : Game),
     ana_game m game = Some m' ->
     is_Some (m' !! key) ->
     is_Some (m !! key) \/
     (retained_score (score key) /\ score key <> no_score)) /\
  (forall (chunks : list (list string)) (T : map_t),
     aggregate read_games chunks = Some T ->
     is_Some (T !! key) ->
     retained_score (score key) /\ score key <> no_score).
Proof.
  split.
  - intros m m' game. rewrite ana_game_trace.
    destruct (game_trace game) as [tr|] eqn:Htr; simpl; [|done].
    intros Hb Hk. destruct (bump_all_dom _ _ _ _ Hb Hk) as [|Hin]; [by left|].
    right. apply list_elem_of_fmap in Hin as (e & -> & He).
    apply (emitted_score_retained game). by exists tr.
  - intros chunks T HT Hk.
    destruct (aggregate_sound _ _ HT) as (Hok & ks & Hks & Hc).
    assert (Hin : key ∈ ks).
    { apply occ_pos_iff. rewrite <- Hc.
      destruct Hk as [c Hk]. unfold cnt. rewrite Hk. simpl.
      specialize (Hok _ _ Hk). lia. }
    destruct (all_keys_emitted _ _ _ Hks Hin) as (g & e & _ & He & <-).
    by apply (emitted_score_retained g).
Qed.

(** C10: every key of the final global table, and so every pair handed
    to the writer, has a count of at least 1. *)
Theorem C10_counts_positive (chunks : list (list string)) (T : map_t) :
  aggregate read_games chunks = Some T ->
  (forall k c, T !! k = Some c -> 1 <= c) /\
  (forall p, p ∈ map_to_list T -> 1 <= p.2).
Proof.
  intros HT. destruct (aggregate_sound _ _ HT) as (Hok & _).
  split.
  - intros k c Hk. specialize (Hok _ _ Hk). lia.
  - intros [k c] Hin. apply elem_of_map_to_list in Hin.
    specialize (Hok _ _ Hin). simpl. lia.
Qed.

End Runs.

(** ** Results on the chunk planner *)

(** C7 (as amended): a non-empty file list is cut into contiguous groups
    whose concatenation is the list; every group but the last has
    [ceil(file_count / target_chunks)] files and the last has between one
    and that many; the number of groups is [ceil(file_count / chunk size)],
    which is at most [target_chunks]; and [target_chunks] is 4 times the
    hardware parallelism, taken as 1 when it is reported as 0. *)
Theorem C7_chunk_plan {A} (files_pgn : list A) (hc : Z) :
  files_pgn <> [] ->
  Z.of_nat (length files_pgn) < 2 ^ 31 ->
  0 <= hc < 2 ^ 29 ->
  let n := Z.of_nat (length files_pgn) in
  let T := 4 * Z.max 1 hc in
  let cs := (n + T - 1) `div` T in
  target_chunks hc = Some T /\
  exists chunks,
    files_chunked files_pgn hc = Some chunks /\
    concat chunks = files_pgn /\
    Z.of_nat (length chunks) = (n + cs - 1) `div` cs /\
    Z.of_nat (length chunks) <= T /\
    Forall (λ c, 1 <= Z.of_nat (length c) <= cs) chunks /\
    (forall (i : nat) c, chunks !! i = Some c -> (S i < length chunks)%nat ->
                         Z.of_nat (length c) = cs).
Proof.
  intros Hne Hlen Hhc n T cs.
  assert (Hn : 1 <= n).
  { subst n. destruct files_pgn; [done|]. simpl. lia. }
  assert (HT : target_chunks hc = Some T).
  { unfold target_chunks. rewrite to_int_small by lia.
    apply checked_Some. split; [done|].
    apply fits_spec. unfold CInt.INT_MIN, CInt.INT_MAX. lia. }
  assert (HTr : 4 <= T < 2 ^ 31) by lia.
  assert (Hcs : 1 <= cs).
  { pose proof (ceil_div_mul_ge n T ltac:(lia)) as Hge. fold cs in Hge. nia. }
  split; [done|].
  destruct (split_loop_spec cs Hcs (length files_pgn) files_pgn [])
    as (chunks & Hrun & Hcat & Hnum & Hall & Hfull); [done..|].
  exists chunks. split.
  { unfold files_chunked. rewrite HT. simpl. unfold split_chunks.
    rewrite chunks_size_spec by lia. simpl. exact Hrun. }
  split; [done|]. split; [done|]. split; [|done].
  rewrite Hnum. fold n.
  pose proof (ceil_div_mul_ge n T ltac:(lia)) as Hge. fold cs in Hge.
  apply Z.lt_succ_r, Z.div_lt_upper_bound; nia.
Qed.

Lemma C7_witness :
  target_chunks 1 = Some 4 /\
  exists chunks,
    files_chunked ["a"; "b"; "c"; "d"; "e"]%string 1 = Some chunks /\
    concat chunks = ["a"; "b"; "c"; "d"; "e"]%string /\
    Z.of_nat (length chunks) = 3 /\
    Z.of_nat (length chunks) <= 4 /\
    Forall (λ c, 1 <= Z.of_nat (length c) <= 2) chunks /\
    (forall (i : nat) c, chunks !! i = Some c -> (S i < length chunks)%nat ->
                         Z.of_nat (length c) = 2).
Proof.
  apply (C7_chunk_plan ["a"; "b"; "c"; "d"; "e"]%string 1).
  - discriminate.
  - simpl. lia.
  - lia.
Defined.

(** C7 as stated fails: with five files and a hardware parallelism of 1 the
    target is 4 chunks, the chunk size is 2, and three chunks are made. *)
Lemma C7_counterexample :
  target_chunks 1 = Some 4 /\
  files_chunked ["a"; "b"; "c"; "d"; "e"]%string 1
    = Some [["a"; "b"]; ["c"; "d"]; ["e"]]%string /\
  Z.of_nat (length [["a"; "b"]; ["c"; "d"]; ["e"]]%string) <> 4.
Proof. repeat split; try (vm_compute; reflexivity). vm_compute. discriminate. Qed.

(** ** The aggregation on the toy file system *)
Lemma C1_witness :
  aggregate Toy.read_games [["a.pgn"]; ["b.pgn"]]%string
  = aggregate Toy.read_games [["b.pgn"; "a.pgn"]]%string /\
  forall T, aggregate Toy.read_games [["a.pgn"]; ["b.pgn"]]%string = Some T ->
    exists ks,
      all_keys (games_of Toy.read_games (concat [["a.pgn"]; ["b.pgn"]]%string))
      = Some ks /\
      forall k, default 0 (T !! k) = occ k ks /\ (is_Some (T !! k) <-> k ∈ ks).
Proof.
  apply (C1_merge_order_independent (H := Toy.engine) Toy.read_games
           [["a.pgn"]; ["b.pgn"]]%string [["b.pgn"; "a.pgn"]]%string).
  simpl. apply perm_swap.
Defined.

Lemma C10_witness :
  exists T : map_t,
    aggregate Toy.read_games [["a.pgn"]; ["b.pgn"]]%string = Some T /\
    (forall k c, T !! k = Some c -> 1 <= c) /\
    (forall p, p ∈ map_to_list T -> 1 <= p.2).
Proof.
  eexists. split; [vm_compute; reflexivity|].
  apply (C10_counts_positive (H := Toy.engine) Toy.read_games
           [["a.pgn"]; ["b.pgn"]]%string).
  vm_compute. reflexivity.
Defined.

Lemma C2_witness :
  (exists m' : map_t,
     ana_game (H := Toy.engine) ∅ (Toy.game "1-0" ["+0.25/18"; "-M3/20"]%string)
     = Some m' /\
     (is_Some (m' !! mkKey WIN 1 78 25) ->
      is_Some ((∅ : map_t) !! mkKey WIN 1 78 25) \/
      (retained_score 25 /\ 25 <> no_score))) /\
  (exists T : map_t,
     aggregate Toy.read_games [["a.pgn"]; ["b.pgn"]]%string = Some T /\
     (is_Some (T !! mkKey LOSS 2 78 (-1001)) ->
      retained_score (-1001) /\ -1001 <> no_score)).
Proof.
  destruct (C2_retained_scores (H := Toy.engine) Toy.read_games (mkKey WIN 1 78 25))
    as [Hgame _].
  destruct (C2_retained_scores (H := Toy.engine) Toy.read_games
              (mkKey LOSS 2 78 (-1001))) as [_ Hall].
  split.
  - eexists. split; [vm_compute; reflexivity|].
    apply (Hgame ∅ _ (Toy.game "1-0" ["+0.25/18"; "-M3/20"]%string)).
    vm_compute. reflexivity.
  - eexists. split; [vm_compute; reflexivity|].
    apply (Hall [["a.pgn"]; ["b.pgn"]]%string).
    vm_compute. reflexivity.
Defined.

(** * Further properties of the program *)

(** ** The operators of [Key] *)

Lemma Key_eqb_spec k1 k2 : Key_eqb k1 k2 = true <-> k1 = k2.
Proof.
  unfold Key_eqb. rewrite !andb_true_iff, bool_decide_eq_true, !Z.eqb_eq.
  destruct k1, k2; simpl. split.
  - intros [[[-> ->] ->] ->]. done.
  - intros [= -> -> -> ->]. done.
Qed.

Lemma lxor_u32 a b :
  0 <= a < 2 ^ 32 -> 0 <= b < 2 ^ 32 -> 0 <= Z.lxor a b < 2 ^ 32.
Proof.
  intros Ha Hb.
  assert (Hnn : 0 <= Z.lxor a b) by (apply Z.lxor_nonneg; lia).
  split; [done|].
  destruct (decide (Z.lxor a b = 0)) as [->|Hne]; [lia|].
  apply Z.log2_lt_pow2; [lia|].
  pose proof (Z.log2_lxor a b ltac:(lia) ltac:(lia)) as Hl.
  assert (Hla : Z.log2 a < 32).
  { destruct (decide (a = 0)) as [->|]; [done|]. apply Z.log2_lt_pow2; lia. }
  assert (Hlb : Z.log2 b < 32).
  { destruct (decide (b = 0)) as [->|]; [done|]. apply Z.log2_lt_pow2; lia. }
  lia.
Qed.

Lemma u32_range z : 0 <= u32 z < 2 ^ 32.
Proof. unfold u32. apply Z.mod_pos_bound. lia. Qed.

Lemma hash_step_range h x : 0 <= h < 2 ^ 32 -> 0 <= hash_step h x < 2 ^ 32.
Proof. intros Hh. apply lxor_u32; [done|apply u32_range]. Qed.

Lemma lxor_cancel_l h a b : Z.lxor h a = Z.lxor h b -> a = b.
Proof.
  intros Heq. apply (f_equal (Z.lxor h)) in Heq.
  by rewrite <- !Z.lxor_assoc, Z.lxor_nilpotent, !Z.lxor_0_l in Heq.
Qed.

Lemma u32_add_inj c x y :
  is_int x -> is_int y -> u32 (x + c) = u32 (y + c) -> x = y.
Proof.
  unfold is_int, CInt.INT_MIN, CInt.INT_MAX, u32. intros Hx Hy Heq.
  pose proof (Z.div_mod (x + c) (2 ^ 32) ltac:(lia)) as Dx.
  pose proof (Z.div_mod (y + c) (2 ^ 32) ltac:(lia)) as Dy.
  rewrite Heq in Dx.
  assert (Hq : (x + c) `div` 2 ^ 32 = (y + c) `div` 2 ^ 32) by lia.
  lia.
Qed.

Lemma hash_step_inj h x y :
  is_int x -> is_int y -> hash_step h x = hash_step h y -> x = y.
Proof.
  intros Hx Hy Heq. apply lxor_cancel_l in Heq.
  apply (u32_add_inj (2654435769 + Z.shiftl h 6 + Z.shiftr h 2)); [done..|].
  by rewrite !Z.add_assoc.
Qed.

(** X1: the hash is a 32-bit value, and two keys that differ in the score
    only never have the same hash. *)
Theorem Key_hash_score_injective (k1 k2 : Key) :
  is_int (score k1) -> is_int (score k2) ->
  outcome k1 = outcome k2 -> move k1 = move k2 -> material k1 = material k2 ->
  0 <= Key_hash k1 < 2 ^ 32 /\
  (Key_hash k1 = Key_hash k2 -> k1 = k2).
Proof.
  intros H1 H2 Ho Hm Hma.
  assert (Hr : forall k, 0 <= Key_hash k < 2 ^ 32).
  { intros k. unfold Key_hash. repeat apply hash_step_range.
    destruct (outcome k); simpl; lia. }
  split; [apply Hr|].
  unfold Key_hash. rewrite Ho, Hm, Hma. intros Heq.
  apply hash_step_inj in Heq; [|done..].
  destruct k1, k2; simpl in *; congruence.
Qed.

(** ** The rendering of a key *)

(** A text without the separator is delimited by it unambiguously. *)
Lemma split_at_unique c a b x y :
  find c a = None -> find c b = None ->
  (a ++ String c x = b ++ String c y)%string -> a = b /\ x = y.
Proof.
  revert b. induction a as [|p a IH]; intros [|q b]; simpl.
  - intros _ _ [= ->]. done.
  - intros _ Hb [= <- _]. by rewrite Ascii.eqb_refl in Hb.
  - intros Ha _ [= -> _]. by rewrite Ascii.eqb_refl in Ha.
  - intros Ha Hb [= -> Heq].
    destruct (Ascii.eqb q c); [done|].
    destruct (find c a) eqn:Ea; [done|].
    destruct (find c b) eqn:Eb; [done|].
    destruct (IH b eq_refl Eb Heq) as [-> ->]. done.
Qed.

Lemma uint_digits d : forall c,
  find c (NilEmpty.string_of_uint d) <> None -> is_digit c = true.
Proof.
  induction d as [|d IHd|d IHd|d IHd|d IHd|d IHd|d IHd|d IHd|d IHd|d IHd|d IHd];
    intros c; cbn [NilEmpty.string_of_uint find]; [intros Hn; by destruct Hn|..];
    (match goal with
     | |- context [Ascii.eqb ?a c] => destruct (Ascii.eqb_spec a c) as [<-|_]
     end; [done|];
     destruct (find c (NilEmpty.string_of_uint d)) eqn:E; [|done];
     intros _; apply IHd; by rewrite E).
Qed.

Lemma to_string_chars z c :
  find c (to_string z) <> None -> is_digit c = true \/ c = "-"%char.
Proof.
  unfold to_string.
  assert (Hu : forall d, find c (NilZero.string_of_uint d) <> None ->
                         is_digit c = true).
  { intros d. destruct d; try apply (uint_digits _ c).
    cbn [NilZero.string_of_uint find].
    destruct (Ascii.eqb_spec "0" c) as [<-|_]; [done|].
    intros Hn. by destruct Hn. }
  destruct (Z.to_int z) as [d|d]; cbn [NilZero.string_of_int find].
  - intros Hf. left. by apply (Hu d).
  - destruct (Ascii.eqb_spec "-" c) as [<-|_]; [by right|].
    destruct (find c (NilZero.string_of_uint d)) eqn:E; [|done].
    intros _. left. apply (Hu d). by rewrite E.
Qed.

Lemma to_string_no c z :
  is_digit c = false -> c <> "-"%char -> find c (to_string z) = None.
Proof.
  intros Hd Hm. destruct (find c (to_string z)) eqn:E; [|done].
  destruct (to_string_chars z c) as [?|?]; [by rewrite E|congruence|done].
Qed.

Lemma to_string_inj a b : to_string a = to_string b -> a = b.
Proof.
  unfold to_string. intros Heq.
  assert (Hi : forall z, NilZero.int_of_string (NilZero.string_of_int (Z.to_int z))
                         = Some (Z.to_int z)).
  { intros z. apply NilZero.isi; destruct z; simpl; try done;
      intros [= E]; by apply (DecimalPos.Unsigned.to_uint_nonnil p). }
  apply (f_equal NilZero.int_of_string) in Heq.
  rewrite !Hi in Heq. injection Heq as Heq.
  by apply DecimalZ.to_int_inj.
Qed.

(** X2: distinct keys are rendered as distinct strings. *)
Theorem Key_to_string_injective (k1 k2 : Key) :
  Key_to_string k1 = Key_to_string k2 -> k1 = k2.
Proof.
  destruct k1 as [o1 m1 ma1 s1], k2 as [o2 m2 ma2 s2].
  unfold Key_to_string. simpl. intros [= Ho Heq].
  apply split_at_unique in Heq as [Hm Heq]; [|by apply to_string_no..].
  injection Heq as Heq.
  apply split_at_unique in Heq as [Hma Heq]; [|by apply to_string_no..].
  injection Heq as Heq.
  apply split_at_unique in Heq as [Hs _]; [|by apply to_string_no..].
  apply to_string_inj in Hm, Hma, Hs. subst.
  f_equal. by destruct o1, o2.
Qed.

(** ** The result writer *)

Lemma to_json_fold l : forall (j0 : gmap string Z) k,
  NoDup l.*1 ->
  foldl (λ j pair, <[Key_to_string pair.1 := pair.2]> j) j0 l !! Key_to_string k
  = match (list_to_map l : map_t) !! k with
    | Some v => Some v
    | None => j0 !! Key_to_string k
    end.
Proof.
  induction l as [|[k0 v0] l IH]; intros j0 k Hnd; [done|].
  apply NoDup_cons in Hnd as [Hk0 Hnd].
  cbn [foldl fmap list_fmap fst snd] in *. rewrite IH by done.
  change (list_to_map ((k0, v0) :: l) : map_t) with (<[k0 := v0]> (list_to_map l : map_t)).
  destruct (decide (k0 = k)) as [->|Hne].
  - rewrite !lookup_insert_eq.
    by rewrite (not_elem_of_list_to_map_1 (M := gmap Key) l k Hk0).
  - rewrite (lookup_insert_ne (list_to_map l)) by done.
    rewrite lookup_insert_ne; [done|].
    intros Heq. by apply Key_to_string_injective in Heq.
Qed.

Lemma to_json_fold_other l : forall (j0 : gmap string Z) s,
  (forall k, k ∈ l.*1 -> s <> Key_to_string k) ->
  foldl (λ j pair, <[Key_to_string pair.1 := pair.2]> j) j0 l !! s = j0 !! s.
Proof.
  induction l as [|[k0 v0] l IH]; intros j0 s Hs; [done|].
  cbn [foldl fst snd]. rewrite IH.
  - rewrite lookup_insert_ne; [done|]. intros Heq. apply (Hs k0); [left|done].
  - intros k Hk. apply Hs. by right.
Qed.

(** X3: the JSON object holds, under the rendering of each key of the table,
    the count of that key, and holds nothing else: no two keys share a
    member and no count is overwritten. *)
Theorem to_json_faithful (pos_map : map_t) :
  (forall k, to_json pos_map !! Key_to_string k = pos_map !! k) /\
  (forall s c, to_json pos_map !! s = Some c ->
               exists k, s = Key_to_string k /\ pos_map !! k = Some c).
Proof.
  assert (Hk : forall k, to_json pos_map !! Key_to_string k = pos_map !! k).
  { intros k. unfold to_json.
    rewrite to_json_fold by apply NoDup_fst_map_to_list.
    rewrite list_to_map_to_list, lookup_empty. by destruct (pos_map !! k). }
  split; [done|]. intros s c Hs.
  destruct (decide (Exists (λ k, s = Key_to_string k) (map_to_list pos_map).*1))
    as [Hex|Hno].
  - apply Exists_exists in Hex as (k & _ & ->).
    exists k. split; [done|]. by rewrite <- Hk.
  - unfold to_json in Hs. rewrite to_json_fold_other, lookup_empty in Hs; [done|].
    intros k Hin ->. apply Hno, Exists_exists. by exists k.
Qed.

Lemma sum_counts_perm l1 l2 : l1 ≡ₚ l2 -> sum_counts l1 = sum_counts l2.
Proof.
  induction 1 as [|p l1 l2 _ IH|p q l|l1 l2 l3 _ IH12 _ IH23]; simpl; lia.
Qed.

Lemma sum_counts_insert (m : map_t) k x :
  m !! k = None ->
  sum_counts (map_to_list (<[k := x]> m)) = x + sum_counts (map_to_list m).
Proof.
  intros Hk. by rewrite (sum_counts_perm _ _ (map_to_list_insert m k x Hk)).
Qed.

Lemma sum_counts_map_add m k n m' :
  map_add m k n = Some m' ->
  sum_counts (map_to_list m') = sum_counts (map_to_list m) + n.
Proof.
  intros [_ ->]%map_add_Some. unfold cnt.
  destruct (m !! k) as [c|] eqn:Hk; simpl.
  - rewrite <- (insert_delete_eq m k (c + n)).
    rewrite <- (insert_delete_id m k c Hk) at 2.
    rewrite !sum_counts_insert by apply lookup_delete_eq. lia.
  - rewrite sum_counts_insert by done. lia.
Qed.

Lemma sum_counts_bump_all ks : forall m m',
  bump_all ks m = Some m' ->
  sum_counts (map_to_list m') = sum_counts (map_to_list m) + Z.of_nat (length ks).
Proof.
  induction ks as [|k ks IH]; intros m m'.
  { intros [= <-]. simpl. lia. }
  rewrite bump_all_cons.
  destruct (map_add m k 1) as [m1|] eqn:Hadd; simpl; [|done].
  intros Hb. rewrite (IH _ _ Hb), (sum_counts_map_add _ _ _ _ Hadd).
  simpl length. lia.
Qed.

Lemma total_fold l : forall t0,
  foldl (λ total (pair : Key * Z), CInt.to_size_t (total + CInt.to_size_t pair.2))
        (t0 `mod` 2 ^ 64) l
  = (t0 + sum_counts l) `mod` 2 ^ 64.
Proof.
  unfold CInt.to_size_t.
  assert (HM : 2 ^ 64 <> 0) by lia. revert HM. generalize (2 ^ 64). intros M HM.
  induction l as [|p l IH]; intros t0.
  { simpl. by rewrite Z.add_0_r. }
  change (sum_counts (p :: l)) with (p.2 + sum_counts l). cbn [foldl].
  rewrite IH.
  rewrite <- Z.add_assoc, Z.add_mod_idemp_l by done.
  rewrite (Z.add_comm t0), <- Z.add_assoc, Z.add_mod_idemp_l by done.
  f_equal. lia.
Qed.

Lemma total_of_sum (pos_map : map_t) :
  total_of pos_map = sum_counts (map_to_list pos_map) `mod` 2 ^ 64.
Proof. unfold total_of. apply (total_fold _ 0). Qed.

(** ** The merge as an operation on tables *)

Lemma merge_spec g l r :
  table_ok g -> table_ok l ->
  merge g l = Some r <->
  table_ok r /\ forall k, cnt r k = cnt g k + cnt l k.
Proof.
  intros Hg Hl. split.
  - by apply merge_sound.
  - intros [Hr Hc].
    destruct (merge_defined g l Hg Hl) as [r' Hr'].
    { intros k. rewrite <- Hc. by apply table_ok_cnt. }
    rewrite Hr'. f_equal.
    destruct (merge_sound _ _ _ Hg Hl Hr') as [Hr'ok Hc'].
    apply table_ext; [done..|]. intros k. by rewrite Hc, Hc'.
Qed.

(** X5: on the tables the program builds, the merge is commutative and
    associative and the empty table is neutral, undefined cases included. *)
Theorem merge_commutative_monoid (a b c : map_t) :
  table_ok a -> table_ok b -> table_ok c ->
  merge a b = merge b a /\
  (merge a b ≫= λ ab, merge ab c) = (merge b c ≫= λ bc, merge a bc) /\
  merge ∅ a = Some a /\ merge a ∅ = Some a.
Proof.
  intros Ha Hb Hc. split; [|split; [|split]].
  - apply option_eq_by_Some; intros r Hr.
    + apply merge_spec in Hr as [Hr Hk]; [|done..].
      apply merge_spec; [done..|]. split; [done|]. intros k. rewrite Hk. lia.
    + apply merge_spec in Hr as [Hr Hk]; [|done..].
      apply merge_spec; [done..|]. split; [done|]. intros k. rewrite Hk. lia.
  - apply option_eq_by_Some; intros r.
    + destruct (merge a b) as [ab|] eqn:Hab; simpl; [|done]. intros Hr.
      apply merge_spec in Hab as [Habok Habc]; [|done..].
      apply merge_spec in Hr as [Hrok Hrc]; [|done..].
      destruct (merge_defined b c Hb Hc) as [bc Hbc].
      { intros k. pose proof (table_ok_cnt r k Hrok) as Hbound.
        pose proof (table_ok_cnt a k Ha). rewrite Hrc, Habc in Hbound. lia. }
      rewrite Hbc. simpl.
      apply merge_spec in Hbc as [Hbcok Hbcc]; [|done..].
      apply merge_spec; [done..|]. split; [done|].
      intros k. rewrite Hrc, Habc, Hbcc. lia.
    + destruct (merge b c) as [bc|] eqn:Hbc; simpl; [|done]. intros Hr.
      apply merge_spec in Hbc as [Hbcok Hbcc]; [|done..].
      apply merge_spec in Hr as [Hrok Hrc]; [|done..].
      destruct (merge_defined a b Ha Hb) as [ab Hab].
      { intros k. pose proof (table_ok_cnt r k Hrok) as Hbound.
        pose proof (table_ok_cnt c k Hc). rewrite Hrc, Hbcc in Hbound. lia. }
      rewrite Hab. simpl.
      apply merge_spec in Hab as [Habok Habc]; [|done..].
      apply merge_spec; [done..|]. split; [done|].
      intros k. rewrite Hrc, Habc, Hbcc. lia.
  - apply merge_spec; [apply table_ok_empty|done|].
    split; [done|]. intros k. rewrite cnt_empty. lia.
  - apply merge_spec; [done|apply table_ok_empty|].
    split; [done|]. intros k. rewrite cnt_empty. lia.
Qed.

Lemma bump_all_counts ks : forall m m',
  bump_all ks m = Some m' ->
  forall k, cnt m' k = cnt m k + occ k ks /\
            (k ∉ ks -> m' !! k = m !! k).
Proof.
  induction ks as [|a ks IH]; intros m m'.
  { intros [= <-] k. unfold occ. simpl. split; [lia|done]. }
  rewrite bump_all_cons.
  destruct (map_add m a 1) as [m1|] eqn:Hadd; simpl; [|done].
  intros Hb k. destruct (IH _ _ Hb k) as [Hc Hl].
  apply map_add_Some in Hadd as [_ ->].
  rewrite occ_cons, Hc, cnt_insert. split.
  - destruct (decide (a = k)) as [->|]; lia.
  - intros [Hne Hk]%not_elem_of_cons.
    rewrite Hl by done. by rewrite lookup_insert_ne.
Qed.

Section WriterAndRuns.
Context `{RulesEngine}.
Variable read_games : string -> list Game.

Lemma loop_trace_length resultkey mvs : forall ply board tr,
  loop_trace resultkey ply board mvs = Some tr ->
  Z.of_nat (length tr) <= Z.of_nat (length mvs) /\
  Z.of_nat (length tr) <= Z.max 0 (400 - ply).
Proof.
  induction mvs as [|mv rest IH]; intros ply board tr; simpl.
  { intros [= <-]. simpl. lia. }
  destruct (Z.ltb_spec 400 (ply + 1)).
  { intros [= <-]. simpl. lia. }
  destruct (ply_key resultkey board (ply + 1) (comment mv)) as [key|];
    simpl; [|done].
  destruct (loop_trace resultkey (ply + 1) _ rest) as [tr'|] eqn:Htr;
    simpl; [|done].
  intros [= <-]. destruct (IH _ _ _ Htr).
  destruct key; simpl length; lia.
Qed.

(** X7: what one game does to a table, whatever the table holds: the count
    of every key grows by the number of scored plies of the game with that
    key, the entries of all other keys stay as they are, and a game scores
    at most 400 plies and at most one per move. *)
Theorem ana_game_counts (m m' : map_t) (game : Game) :
  ana_game m game = Some m' ->
  exists ks, game_keys game = Some ks /\
    Z.of_nat (length ks) <= Z.min 400 (Z.of_nat (length (moves game))) /\
    forall k, cnt m' k = cnt m k + occ k ks /\
              (k ∉ ks -> m' !! k = m !! k).
Proof.
  rewrite ana_game_keys.
  destruct (game_keys game) as [ks|] eqn:Hks; simpl; [|done].
  intros Hb. exists ks. split; [done|].
  split; [|by apply bump_all_counts].
  unfold game_keys, game_trace in Hks.
  destruct (result_key game) as [rk|]; simpl in Hks.
  - destruct (loop_trace rk 0 (start_board game) (moves game)) as [tr|] eqn:Htr;
      simpl in Hks; [|done].
    injection Hks as <-. rewrite length_fmap.
    destruct (loop_trace_length _ _ _ _ _ Htr). lia.
  - injection Hks as <-. simpl. lia.
Qed.

(** X8: the move number of a key is the ply number halved and rounded up,
    between 1 and 200, and its material is the weighted piece count of the
    board before the move, between 0 and 1344. *)
Theorem emitted_move_and_material (game : Game) (e : Emit) :
  emits game e ->
  2 * move (e_key e) - 1 <= e_ply e <= 2 * move (e_key e) /\
  1 <= move (e_key e) <= 200 /\
  e_board e = play (start_board game) (take (Z.to_nat (e_ply e - 1)) (moves game)) /\
  material (e_key e)
  = 9 * count (e_board e) QUEEN + 5 * count (e_board e) ROOK
    + 3 * count (e_board e) BISHOP + 3 * count (e_board e) KNIGHT
    + count (e_board e) PAWN /\
  0 <= material (e_key e) <= 1344.
Proof.
  intros He. destruct (emits_inv game e He) as (rk & _ & Hat).
  destruct Hat as (i & mv & s & _ & Hply & Hcut & Hb & _ & _ & Hk).
  rewrite Hk. simpl.
  assert (Hq : (e_ply e + 1) ÷ 2 = (e_ply e + 1) `div` 2)
    by (apply Z.quot_div_nonneg; lia).
  rewrite Hq.
  pose proof (count_range (e_board e) QUEEN).
  pose proof (count_range (e_board e) ROOK).
  pose proof (count_range (e_board e) BISHOP).
  pose proof (count_range (e_board e) KNIGHT).
  pose proof (count_range (e_board e) PAWN).
  repeat split; try lia; try (Z.div_mod_to_equations; lia).
  rewrite Hb. f_equal. f_equal. lia.
Qed.

(** X4: the total reported at the end is the number of scored plies of
    all games (modulo 2^64, the width of the counter). *)
Theorem total_counts_plies (chunks : list (list string)) (T : map_t) :
  aggregate read_games chunks = Some T ->
  exists ks, all_keys (games_of read_games (concat chunks)) = Some ks /\
             total_of T = Z.of_nat (length ks) `mod` 2 ^ 64.
Proof.
  unfold aggregate. rewrite aggregate_keys by apply table_ok_empty.
  destruct (all_keys (games_of read_games (concat chunks))) as [ks|];
    simpl; [|done].
  intros Hb. exists ks. split; [done|].
  rewrite total_of_sum, (sum_counts_bump_all _ _ _ Hb).
  by rewrite map_to_list_empty.
Qed.

End WriterAndRuns.

(** ** More on the score of one annotation *)

Lemma find_app_delimiter c p rest :
  find c p = None -> find c (p ++ String c rest) = Some (String.length p).
Proof.
  induction p as [|a p IH]; simpl.
  { by rewrite Ascii.eqb_refl. }
  destruct (Ascii.eqb a c); [done|].
  destruct (find c p); [done|]. intros _. by rewrite IH.
Qed.

Lemma substr_app_prefix p rest :
  substr (p ++ rest) 0 (String.length p) = p.
Proof.
  unfold substr. induction p as [|a p IH]; simpl.
  - by destruct rest.
  - by rewrite IH.
Qed.

(** X11: the score of a ply is decided by the text before the first '/':
    what follows the delimiter (depth, time, ...) has no influence. *)
Theorem ply_score_prefix_only (p r1 r2 : string) :
  find "/" p = None ->
  ply_score (p ++ String "/" r1) = ply_score (p ++ String "/" r2).
Proof.
  intros Hp.
  assert (Hone : forall r, ply_score (p ++ String "/" r) =
            (string_at p 1 ≫= λ c1,
             if Ascii.eqb c1 "M" then
               string_at p 0 ≫= λ c0,
               if Ascii.eqb c0 "+" then Some 1001 else Some (-1001)
             else centi_score p ≫= λ score, reduce_precision (clamp score))).
  { intros r. unfold ply_score, mate_check_read.
    pose proof (find_app_delimiter "/" p r Hp) as Hf.
    rewrite Hf, (find_Some_not_book _ _ Hf), substr_app_prefix. done. }
  by rewrite !Hone.
Qed.

(** X12: a ply is skipped exactly when its comment has no '/'; the
    comparison with "book" never decides, since "book" has no '/'. *)
Theorem ply_skipped_iff_no_delimiter (comment : string) :
  (ply_score comment = Some no_score <-> find "/" comment = None) /\
  (find "/" comment <> None -> String.eqb comment "book" = false).
Proof.
  split.
  - split.
    + intros Hs. destruct (find "/" comment) as [pos|] eqn:Hf; [|done].
      exfalso. revert Hs. unfold ply_score.
      rewrite Hf, (find_Some_not_book _ _ Hf). simpl.
      destruct (mate_check_read comment pos) as [c1|]; [simpl|done].
      destruct (Ascii.eqb c1 "M").
      * destruct (string_at (substr comment 0 pos) 0) as [c0|]; [simpl|done].
        by destruct (Ascii.eqb c0 "+").
      * destruct (centi_score (substr comment 0 pos)) as [t|]; [simpl|done].
        rewrite reduce_precision_spec by apply clamp_range.
        unfold no_score. intros [= Hs]. lia.
    + intros Hf. unfold ply_score. by rewrite Hf.
  - intros Hf. destruct (find "/" comment) as [pos|] eqn:Hp; [|done].
    by apply (find_Some_not_book _ pos).
Qed.

Lemma fast_stof_garbage c p :
  is_digit c = false -> c <> "-"%char -> c <> "+"%char -> c <> "."%char ->
  fast_stof (String c p) = S754_zero false.
Proof.
  destruct c as [[] [] [] [] [] [] [] []]; intros Hd Hm Hp Hdot;
    try done; reflexivity.
Qed.

(** X14: a prefix that starts with a character that is no digit, sign or
    point is parsed as 0 and, unless the mate test fires on its second
    character, the ply is counted with score 0. *)
Theorem garbage_prefix_scores_zero (c : ascii) (p rest : string) :
  is_digit c = false -> c <> "-"%char -> c <> "+"%char -> c <> "."%char ->
  c <> "/"%char -> find "/" p = None -> String.get 0 p <> Some "M"%char ->
  fast_stof (String c p) = S754_zero false /\
  ply_score (String c p ++ String "/" rest) = Some 0.
Proof.
  intros Hd Hm Hpl Hdot Hsl Hp HM.
  pose proof (fast_stof_garbage c p Hd Hm Hpl Hdot) as Hz.
  split; [done|].
  assert (Hf : find "/" (String c p) = None).
  { simpl. destruct (Ascii.eqb_spec c "/"); [done|]. by rewrite Hp. }
  pose proof (find_app_delimiter "/" (String c p) rest Hf) as Hfind.
  unfold ply_score, mate_check_read.
  rewrite Hfind, (find_Some_not_book _ _ Hfind), substr_app_prefix.
  cbn [negb].
  assert (Hc1 : exists c1, string_at (String c p) 1 = Some c1 /\ c1 <> "M"%char).
  { unfold string_at. simpl. destruct p as [|b p]; simpl in *.
    - exists Ascii.zero. done.
    - exists b. split; [done|]. congruence. }
  destruct Hc1 as (c1 & -> & Hne). simpl.
  destruct (Ascii.eqb_spec c1 "M"); [done|].
  unfold centi_score. rewrite Hz. reflexivity.
Qed.

(** X15: the scores of all two-decimal evaluations from -10.00 to 10.00,
    with or without '+': the lower multiple of 5 of the centipawn value,
    except for 26 values where the rounding of the single-precision
    product moves the score to the neighbouring multiple of 5 (1.05 is
    stored as 100, -1.06 as -105). *)
Theorem two_decimal_scores (plus : bool) (n : Z) (rest : string) :
  -1000 <= n <= 1000 ->
  ply_score (two_decimal plus n ++ String "/" rest) = Some (two_decimal_score n).
Proof.
  intros Hn.
  assert (Hok : two_decimal_ok plus n = true).
  { apply (Zrange_forallb (two_decimal_ok plus) (-1000) (Z.to_nat 2001)); [|lia].
    destruct plus; vm_compute; reflexivity. }
  apply andb_true_iff in Hok as [Hf Hs].
  apply bool_decide_eq_true in Hf, Hs.
  by rewrite (ply_score_prefix_only _ rest "" Hf).
Qed.

(** *** The sign of the parsed value *)

Lemma round_aux_negb sx m e l :
  binary_round_aux 24 128 (negb sx) m e l
  = SFopp (binary_round_aux 24 128 sx m e l).
Proof.
  unfold binary_round_aux.
  destruct (shr_fexp 24 128 m e l) as [mrs' e'].
  destruct (shr_fexp 24 128 _ e' loc_Exact) as [mrs'' e''].
  destruct (shr_m mrs''); [done| |done].
  by destruct (Z.leb e'' (128 - 24)).
Qed.

Lemma f32_mul_opp_r x y :
  Flt.f32_mul x (SFopp y) = SFopp (Flt.f32_mul x y).
Proof.
  unfold Flt.f32_mul.
  destruct x as [sx|sx| |sx mx ex], y as [sy|sy| |sy my ey]; simpl;
    try done; try (by destruct sx, sy).
  replace (xorb sx (negb sy)) with (negb (xorb sx sy)) by (by destruct sx, sy).
  apply round_aux_negb.
Qed.

Lemma f32_div_opp_l x y :
  Flt.f32_div (SFopp x) y = SFopp (Flt.f32_div x y).
Proof.
  unfold Flt.f32_div.
  destruct x as [sx|sx| |sx mx ex], y as [sy|sy| |sy my ey]; simpl;
    try done; try (by destruct sx, sy).
  destruct (SFdiv_core_binary 24 128 (Z.pos mx) ex (Z.pos my) ey) as [[mz ez] lz].
  replace (xorb (negb sx) sy) with (negb (xorb sx sy)) by (by destruct sx, sy).
  apply round_aux_negb.
Qed.

Lemma trunc_opp x : Flt.trunc (SFopp x) = Z.opp <$> Flt.trunc x.
Proof.
  destruct x as [s|s| |s m e]; simpl; try done.
  f_equal. destruct s; simpl; lia.
Qed.

Lemma fast_stof_unsigned_opp s :
  fast_stof_unsigned (-1) s = SFopp (fast_stof_unsigned 1 s).
Proof.
  unfold fast_stof_unsigned.
  destruct (int_part (S754_zero false) s) as [result str].
  assert (Hm : forall r, Flt.f32_mul r (Flt.f32_of_int (-1))
                         = SFopp (Flt.f32_mul r (Flt.f32_of_int 1))).
  { intros r. change (Flt.f32_of_int (-1)) with (SFopp (Flt.f32_of_int 1)).
    apply f32_mul_opp_r. }
  destruct (match str with
            | String "." rest =>
                let '(r, f) := frac_part result (Flt.f32_of_int 1) rest in (r, f, true)
            | _ => (result, Flt.f32_of_int 1, false)
            end) as [[r f] [|]].
  - rewrite Hm. apply f32_div_opp_l.
  - apply Hm.
Qed.

Lemma fast_stof_no_sign s :
  (forall r, s <> String "-" r) -> (forall r, s <> String "+" r) ->
  fast_stof s = fast_stof_unsigned 1 s.
Proof.
  intros Hm Hp. destruct s as [|c s]; [reflexivity|].
  destruct c as [[] [] [] [] [] [] [] []]; try reflexivity.
  - by destruct (Hp s).
  - by destruct (Hm s).
Qed.

(** X16: one leading sign is read: a '+' changes nothing, and a '-' negates
    the parsed value exactly, so the centipawn value of the negated text is
    the negated centipawn value. *)
Theorem fast_stof_sign (s : string) :
  (forall r, s <> String "-" r) -> (forall r, s <> String "+" r) ->
  fast_stof (String "+" s) = fast_stof s /\
  fast_stof (String "-" s) = SFopp (fast_stof s) /\
  Flt.trunc (Flt.f32_mul (Flt.f32_of_int 100) (fast_stof (String "-" s)))
  = Z.opp <$> Flt.trunc (Flt.f32_mul (Flt.f32_of_int 100) (fast_stof s)).
Proof.
  intros Hm Hp. rewrite (fast_stof_no_sign s Hm Hp).
  assert (Hneg : fast_stof (String "-" s) = SFopp (fast_stof_unsigned 1 s)).
  { change (fast_stof (String "-" s)) with (fast_stof_unsigned (-1) s).
    apply fast_stof_unsigned_opp. }
  split; [reflexivity|]. split; [done|].
  by rewrite Hneg, f32_mul_opp_r, trunc_opp.
Qed.

(** ** The file list *)

Lemma has_arg_spec flag args : has_arg flag args = true <-> flag ∈ args.
Proof.
  unfold has_arg. rewrite existsb_exists, list_elem_of_In. split.
  - intros (a & Hin & Heq). apply String.eqb_eq in Heq. by subst.
  - intros Hin. exists flag. split; [done|]. apply String.eqb_refl.
Qed.

Lemma has_arg_false flag args : flag ∉ args -> has_arg flag args = false.
Proof.
  intros Hno. destruct (has_arg flag args) eqn:E; [|done].
  by apply has_arg_spec in E.
Qed.

Lemma arg_after_first flag pre rest :
  flag ∉ pre -> arg_after flag (pre ++ flag :: rest) = head rest.
Proof.
  induction pre as [|a pre IH]; simpl.
  { by rewrite String.eqb_refl. }
  intros [Hne Hpre]%not_elem_of_cons.
  destruct (String.eqb_spec a flag); [congruence|]. by apply IH.
Qed.

Section FileList.
Variable dir_entries : string -> option (list string).
Variable extension : string -> string.

(** X17: which files are analysed: with "--dir p" the ".pgn" entries of
    [p], also when "--file" is given as well; otherwise with "--file p"
    exactly [p], whatever its extension and without looking at the file
    system; otherwise the ".pgn" entries of "./pgns". *)
Theorem files_pgn_selection (args : list string) :
  (forall pre p post,
     args = pre ++ "--dir"%string :: p :: post -> "--dir"%string ∉ pre ->
     files_pgn dir_entries extension args = get_files dir_entries extension p) /\
  (forall pre p post,
     args = pre ++ "--file"%string :: p :: post -> "--file"%string ∉ pre ->
     "--dir"%string ∉ args ->
     files_pgn dir_entries extension args = Some [p]) /\
  ("--dir"%string ∉ args -> "--file"%string ∉ args ->
   files_pgn dir_entries extension args
   = get_files dir_entries extension "./pgns").
Proof.
  unfold files_pgn. split; [|split].
  - intros pre p post -> Hpre.
    assert (Hin : has_arg "--dir" (pre ++ "--dir"%string :: p :: post) = true).
    { apply has_arg_spec, elem_of_app. right. left. }
    by rewrite Hin, arg_after_first.
  - intros pre p post -> Hpre Hdir.
    rewrite (has_arg_false _ _ Hdir).
    assert (Hin : has_arg "--file" (pre ++ "--file"%string :: p :: post) = true).
    { apply has_arg_spec, elem_of_app. right. left. }
    by rewrite Hin, arg_after_first.
  - intros Hdir Hfile.
    by rewrite (has_arg_false _ _ Hdir), (has_arg_false _ _ Hfile).
Qed.

(** X18: a "--dir" or "--file" that is the last argument has no path after
    it: the program dereferences the end of the argument vector, and no
    file list results. *)
Theorem files_pgn_trailing_flag (pre : list string) :
  ("--dir"%string ∉ pre ->
   files_pgn dir_entries extension (pre ++ ["--dir"%string]) = None) /\
  ("--dir"%string ∉ pre -> "--file"%string ∉ pre ->
   files_pgn dir_entries extension (pre ++ ["--file"%string]) = None).
Proof.
  unfold files_pgn. split.
  - intros Hpre.
    assert (Hin : has_arg "--dir" (pre ++ ["--dir"%string]) = true).
    { apply has_arg_spec, elem_of_app. right. left. }
    by rewrite Hin, arg_after_first.
  - intros Hdir Hfile.
    assert (Hno : has_arg "--dir" (pre ++ ["--file"%string]) = false).
    { apply has_arg_false. intros [?|Hin]%elem_of_app; [done|].
      apply list_elem_of_singleton in Hin. done. }
    assert (Hin : has_arg "--file" (pre ++ ["--file"%string]) = true).
    { apply has_arg_spec, elem_of_app. right. left. }
    by rewrite Hno, Hin, arg_after_first.
Qed.

End FileList.

(** ** The chunk planner beyond [main] *)

(** X19: for every positive target [split_chunks] returns: the chunks are
    a contiguous cut of the list, none is empty, there are at most
    [target_chunks] of them, and an empty list gives no chunk at all; a
    target of 0 divides by zero. *)
Theorem split_chunks_positive_target {A} (pgns : list A) (t : Z) :
  1 <= t < 2 ^ 31 ->
  Z.of_nat (length pgns) < 2 ^ 31 ->
  (exists chunks,
     split_chunks pgns t = Some chunks /\
     concat chunks = pgns /\
     Forall (λ c, c <> []) chunks /\
     Z.of_nat (length chunks) <= t /\
     (pgns = [] -> chunks = [])) /\
  split_chunks pgns 0 = None.
Proof.
  intros Ht Hlen. split; [|done].
  unfold split_chunks. rewrite chunks_size_spec by lia. simpl.
  destruct pgns as [|a pgns].
  { exists []. simpl. repeat split; try done. lia. }
  set (full := a :: pgns) in *.
  assert (Hn : 1 <= Z.of_nat (length full)) by (subst full; simpl; lia).
  pose proof (ceil_div_mul_ge (Z.of_nat (length full)) t ltac:(lia)) as Hge.
  set (cs := (Z.of_nat (length full) + t - 1) `div` t) in *.
  assert (Hcs : 1 <= cs) by nia.
  destruct (split_loop_spec cs Hcs (length full) full [])
    as (chunks & Hrun & Hcat & Hnum & Hall & _); [done..|].
  exists chunks. split; [exact Hrun|]. split; [done|]. split; [|split].
  - eapply Forall_impl; [exact Hall|]. intros c Hc ->. simpl in Hc. lia.
  - rewrite Hnum. apply Z.lt_succ_r, Z.div_lt_upper_bound; nia.
  - done.
Qed.

Section SingleFile.
Context `{RulesEngine}.
Variable read_games : string -> list Game.

(** X10: a run on one file, as "--file" gives it, makes one chunk of that
    file, and its table is the one obtained by analysing the games of the
    file one after the other. *)
Theorem single_file_run (path : string) (hc : Z) :
  0 <= hc < 2 ^ 29 ->
  files_chunked [path] hc = Some [[path]] /\
  aggregate read_games [[path]] = foldlM ana_game ∅ (read_games path).
Proof.
  intros Hhc. split.
  - unfold files_chunked, target_chunks.
    rewrite to_int_small by lia.
    assert (Hfit : CInt.checked (4 * Z.max 1 hc) = Some (4 * Z.max 1 hc)).
    { apply checked_Some. split; [done|]. apply fits_spec.
      unfold CInt.INT_MIN, CInt.INT_MAX. lia. }
    rewrite Hfit. cbn [mbind option_bind]. unfold split_chunks.
    cbn [length]. change (Z.of_nat 1) with 1.
    rewrite chunks_size_spec by lia.
    assert (Hq : (1 + 4 * Z.max 1 hc - 1) `div` (4 * Z.max 1 hc) = 1).
    { replace (1 + 4 * Z.max 1 hc - 1) with (1 * (4 * Z.max 1 hc)) by lia.
      apply Z.div_mul. lia. }
    rewrite Hq. reflexivity.
  - unfold aggregate. rewrite aggregate_keys by apply table_ok_empty.
    simpl concat. rewrite <- ana_files_keys. unfold ana_files. simpl.
    by destruct (foldlM ana_game ∅ (read_games path)).
Qed.

End SingleFile.

(** ** When the score of a ply is undefined *)

Lemma string_at_0 s : is_Some (string_at s 0).
Proof. destruct s; by eexists. Qed.

Lemma substr_0_0 s : substr s 0 0 = ""%string.
Proof. by destruct s. Qed.

(** X13: the read of the mate test is within the prefix or on its
    terminator exactly when the comment does not start with '/'; and the
    score of a ply is undefined in two cases only: the comment starts with
    '/', or the number before the '/' does not fit an [int] after the
    multiplication by 100. *)
Theorem ply_score_undefined_iff (comment : string) (pos : nat) :
  find "/" comment = Some pos ->
  (is_Some (mate_check_read comment pos) <-> pos <> 0%nat) /\
  (ply_score comment = None <->
   pos = 0%nat \/
   (exists c1, mate_check_read comment pos = Some c1 /\ c1 <> "M"%char /\
               centi_score (substr comment 0 pos) = None)).
Proof.
  intros Hf.
  assert (Hread : is_Some (mate_check_read comment pos) <-> pos <> 0%nat).
  { split.
    - intros [c Hc] ->. unfold mate_check_read in Hc.
      by rewrite substr_0_0 in Hc.
    - intros Hpos. destruct pos as [|pos]; [done|].
      by apply mate_check_read_defined. }
  split; [done|].
  unfold ply_score. rewrite Hf, (find_Some_not_book _ _ Hf). cbn [negb].
  destruct (mate_check_read comment pos) as [c1|] eqn:Hc1; simpl.
  - assert (Hpos : pos <> 0%nat) by (apply Hread; eauto).
    destruct (Ascii.eqb_spec c1 "M") as [->|Hne].
    + destruct (string_at_0 (substr comment 0 pos)) as [c0 ->]. simpl.
      split.
      * by destruct (Ascii.eqb c0 "+").
      * intros [?|(c & [= <-] & Hc & _)]; done.
    + destruct (centi_score (substr comment 0 pos)) as [t|] eqn:Ht; simpl.
      * rewrite reduce_precision_spec by apply clamp_range.
        split; [done|]. intros [?|(c & _ & _ & ?)]; done.
      * split; [|done]. intros _. right. by exists c1.
  - split; [|done]. intros _. left.
    destruct pos; [done|]. exfalso.
    assert (Hsome : is_Some (@None ascii)) by (by apply Hread).
    by destruct Hsome.
Qed.

(** ** Schedules *)

(** X6: the merge of a local table gives the same global table in
    whatever order the pairs of the local table are visited. *)
Theorem merge_any_iteration_order (g l : map_t) (ps : list (Key * Z)) :
  ps ≡ₚ map_to_list l -> add_pairs g ps = merge g l.
Proof.
  intros Hp. symmetry. apply add_pairs_perm; [done|].
  apply NoDup_fst_map_to_list.
Qed.

Section MainRun.
Context `{RulesEngine}.
Variable read_games : string -> list Game.

Lemma aggregate_concat (chunks : list (list string)) :
  aggregate read_games chunks = ana_files read_games ∅ (concat chunks).
Proof.
  unfold aggregate.
  rewrite aggregate_keys by apply table_ok_empty.
  by rewrite ana_files_keys.
Qed.

(** X9: the table [main] ends with is the table of the sequential
    analysis of the file list in one table, whatever the hardware
    parallelism and the order in which the tasks take the lock. *)
Theorem main_table_sequential (files : list string) (hc : Z)
    (chunks order : list (list string)) :
  files_chunked files hc = Some chunks ->
  order ≡ₚ chunks ->
  aggregate read_games order = ana_files read_games ∅ files.
Proof.
  intros Hch%files_chunked_concat Ho.
  rewrite aggregate_concat, !ana_files_keys.
  apply keys_run_perm, games_of_perm.
  by rewrite (concat_perm _ _ Ho), Hch.
Qed.

End MainRun.

(** ** Instances of the further results *)

Lemma table_ok_singleton k c :
  1 <= c <= CInt.INT_MAX -> table_ok {[ k := c ]}.
Proof.
  intros Hc k' c' Hk. apply lookup_singleton_Some in Hk as [_ <-]. done.
Qed.

Lemma X1_witness :
  0 <= Key_hash (mkKey WIN 1 78 25) < 2 ^ 32 /\
  (Key_hash (mkKey WIN 1 78 25) = Key_hash (mkKey WIN 1 78 30) ->
   mkKey WIN 1 78 25 = mkKey WIN 1 78 30).
Proof.
  apply (Key_hash_score_injective (mkKey WIN 1 78 25) (mkKey WIN 1 78 30));
    try reflexivity; unfold is_int, CInt.INT_MIN, CInt.INT_MAX; simpl; lia.
Defined.

Lemma X2_witness :
  mkKey LOSS 4 31 (-1001) = mkKey LOSS 4 31 (-1001).
Proof.
  apply (Key_to_string_injective (mkKey LOSS 4 31 (-1001)) (mkKey LOSS 4 31 (-1001))).
  reflexivity.
Defined.

Lemma X3_witness :
  exists k, "('W', 1, 78, 25)"%string = Key_to_string k /\
            ({[ mkKey WIN 1 78 25 := 3 ]} : map_t) !! k = Some 3.
Proof.
  apply (proj2 (to_json_faithful {[ mkKey WIN 1 78 25 := 3 ]})).
  vm_compute. reflexivity.
Defined.

Lemma X5_witness :
  let a : map_t := {[ mkKey WIN 1 78 25 := 2 ]} in
  let b : map_t := {[ mkKey DRAW 9 40 0 := 4 ]} in
  let c : map_t := ∅ in
  merge a b = merge b a /\
  (merge a b ≫= λ ab, merge ab c) = (merge b c ≫= λ bc, merge a bc) /\
  merge ∅ a = Some a /\ merge a ∅ = Some a.
Proof.
  intros a b c.
  refine (merge_commutative_monoid a b c _ _ _).
  - apply table_ok_singleton. unfold CInt.INT_MAX. lia.
  - apply table_ok_singleton. unfold CInt.INT_MAX. lia.
  - apply table_ok_empty.
Defined.

Lemma X6_witness :
  add_pairs {[ mkKey WIN 1 78 25 := 2 ]}
            [(mkKey DRAW 9 40 0, 4); (mkKey WIN 1 78 25, 1)]
  = merge {[ mkKey WIN 1 78 25 := 2 ]}
          {[ mkKey WIN 1 78 25 := 1; mkKey DRAW 9 40 0 := 4 ]}.
Proof.
  apply (merge_any_iteration_order {[ mkKey WIN 1 78 25 := 2 ]}
           {[ mkKey WIN 1 78 25 := 1; mkKey DRAW 9 40 0 := 4 ]}).
  vm_compute. apply perm_swap.
Defined.

Lemma X7_witness :
  exists m' : map_t,
    ana_game (H := Toy.engine) {[ mkKey WIN 1 78 25 := 7 ]}
             (Toy.game "1-0" ["+0.25/18"; "book"; "+0.27/19"]%string) = Some m' /\
    exists ks,
      game_keys (H := Toy.engine)
                (Toy.game "1-0" ["+0.25/18"; "book"; "+0.27/19"]%string) = Some ks /\
      Z.of_nat (length ks) <= Z.min 400 3 /\
      forall k, cnt m' k = cnt {[ mkKey WIN 1 78 25 := 7 ]} k + occ k ks /\
                (k ∉ ks -> m' !! k = ({[ mkKey WIN 1 78 25 := 7 ]} : map_t) !! k).
Proof.
  eexists. split; [vm_compute; reflexivity|].
  apply (ana_game_counts (H := Toy.engine) {[ mkKey WIN 1 78 25 := 7 ]} _
           (Toy.game "1-0" ["+0.25/18"; "book"; "+0.27/19"]%string)).
  vm_compute. reflexivity.
Defined.

Lemma X8_witness :
  2 * 1 - 1 <= 2 <= 2 * 1 /\ 1 <= 1 <= 200.
Proof.
  destruct (emitted_move_and_material (H := Toy.engine)
              (Toy.game "1-0" ["+0.25/18"; "-0.30/17"]%string)
              (Toy.emit 2 BLACK (mkKey LOSS 1 78 (-30)))) as (Hply & Hmove & _).
  - eexists. split; [vm_compute; reflexivity|].
    apply list_elem_of_further, list_elem_of_here.
  - split; [exact Hply|exact Hmove].
Defined.

Lemma X9_witness :
  aggregate Toy.read_games [["b.pgn"]; ["a.pgn"]]%string
  = ana_files Toy.read_games ∅ ["a.pgn"; "b.pgn"]%string.
Proof.
  apply (main_table_sequential (H := Toy.engine) Toy.read_games
           ["a.pgn"; "b.pgn"]%string 1 [["a.pgn"]; ["b.pgn"]]%string).
  - vm_compute. reflexivity.
  - apply perm_swap.
Defined.

Lemma X10_witness :
  files_chunked ["a.pgn"%string] 8 = Some [["a.pgn"%string]] /\
  aggregate Toy.read_games [["a.pgn"%string]]
  = foldlM (ana_game (H := Toy.engine)) ∅ (Toy.read_games "a.pgn").
Proof.
  apply (single_file_run (H := Toy.engine) Toy.read_games "a.pgn" 8). lia.
Defined.

Lemma X4_witness :
  exists T : map_t,
    aggregate Toy.read_games [["a.pgn"]]%string = Some T /\
    exists ks,
      all_keys (games_of Toy.read_games (concat [["a.pgn"]]%string)) = Some ks /\
      total_of T = Z.of_nat (length ks) `mod` 2 ^ 64.
Proof.
  eexists. split; [vm_compute; reflexivity|].
  apply (total_counts_plies (H := Toy.engine) Toy.read_games [["a.pgn"]]%string).
  vm_compute. reflexivity.
Defined.

Lemma X11_witness :
  ply_score "+0.25/18" = ply_score "+0.25/22 1.4s".
Proof.
  apply (ply_score_prefix_only "+0.25" "18" "22 1.4s").
  vm_compute. reflexivity.
Defined.

Lemma X12_witness :
  String.eqb "+0.25/18" "book" = false /\
  ply_score "book" = Some no_score.
Proof.
  split.
  - apply (proj2 (ply_skipped_iff_no_delimiter "+0.25/18")).
    vm_compute. discriminate.
  - apply (proj1 (ply_skipped_iff_no_delimiter "book")).
    vm_compute. reflexivity.
Defined.

Lemma X13_witness :
  ply_score "/18" = None /\ is_Some (mate_check_read "5/18" 1).
Proof.
  split.
  - apply (proj2 (ply_score_undefined_iff "/18" 0 eq_refl)). by left.
  - apply (proj1 (ply_score_undefined_iff "5/18" 1 eq_refl)). discriminate.
Defined.

Lemma X14_witness :
  fast_stof "draw" = S754_zero false /\ ply_score "draw/12" = Some 0.
Proof.
  apply (garbage_prefix_scores_zero "d" "raw" "12"); try discriminate;
    vm_compute; reflexivity.
Defined.

Lemma X15_witness :
  ply_score "+1.05/20 0.8s" = Some 100 /\ ply_score "-1.06/20" = Some (-105) /\
  ply_score "0.30/7" = Some 30.
Proof.
  split; [|split].
  - apply (two_decimal_scores true 105 "20 0.8s"). lia.
  - apply (two_decimal_scores false (-106) "20"). lia.
  - apply (two_decimal_scores false 30 "7"). lia.
Defined.

Lemma X16_witness :
  fast_stof "+1.05" = fast_stof "1.05" /\
  fast_stof "-1.05" = SFopp (fast_stof "1.05") /\
  Flt.trunc (Flt.f32_mul (Flt.f32_of_int 100) (fast_stof "-1.05"))
  = Z.opp <$> Flt.trunc (Flt.f32_mul (Flt.f32_of_int 100) (fast_stof "1.05")).
Proof.
  apply (fast_stof_sign "1.05"); intros r; discriminate.
Defined.

Lemma X17_witness :
  files_pgn ToyFiles.dir_entries ToyFiles.extension ["--file"; "x.txt"; "--dir"; "d"]%string
  = get_files ToyFiles.dir_entries ToyFiles.extension "d".
Proof.
  apply (proj1 (files_pgn_selection ToyFiles.dir_entries ToyFiles.extension
                  ["--file"; "x.txt"; "--dir"; "d"]%string)
           ["--file"; "x.txt"]%string "d"%string []).
  - reflexivity.
  - intros Hin. apply elem_of_cons in Hin as [?|Hin]; [discriminate|].
    apply list_elem_of_singleton in Hin. discriminate.
Defined.

Lemma X18_witness :
  files_pgn ToyFiles.dir_entries ToyFiles.extension ["--dir"]%string = None.
Proof.
  apply (proj1 (files_pgn_trailing_flag ToyFiles.dir_entries ToyFiles.extension [])).
  apply not_elem_of_nil.
Defined.

Lemma X19_witness :
  (exists chunks,
     split_chunks [1; 2; 3]%nat 2 = Some chunks /\
     concat chunks = [1; 2; 3]%nat /\
     Forall (λ c, c <> []) chunks /\
     Z.of_nat (length chunks) <= 2 /\
     ([1; 2; 3]%nat = [] -> chunks = [])) /\
  split_chunks [1; 2; 3]%nat 0 = None.
Proof.
  apply (split_chunks_positive_target [1; 2; 3]%nat 2); simpl; lia.
Defined.
